(** * c23-syntax-diagrams: the rule registry, the builder shim, the
      mount/render functions and the rule-name filter

    Shallow embedding of [c23-syntax-diagrams.mjs] (the rule registry
    [rules], [callOrNew] and the wrapped primitives, [mountRule],
    [renderRuleList], [chain], [renderAllSections]) and of [filterNames] in
    [src/app/App.tsx].

    Conventions.
    - A JavaScript computation that may throw is a value of [Outcome]; the
      first throw of a sequence of evaluations wins ([x ← e; k]).
    - Strings are sequences of code units below 256; [toLowerCase] and
      [trim] are given on that range.
    - The DOM is read in two ways. First as a tree of [Node]s that are
      values: a mutated element is passed on as the updated element, and a
      node that is appended is a node that was in no tree before. This is
      the page for the nodes that [mountRule] creates and for new nodes
      that an export of the package returns. Second, in [Module Live], as a
      store of nodes with identities and parents, where [appendChild] moves
      a node and refuses a node that contains the parent; the statements
      on what two renderings share are made there, and
      [live_renderRuleList_refines] relates the two readings.
    - The railroad-diagram package is an import of the module, not part of
      it: [Module RR] describes the builds of it that the module's comments
      speak about (exports that are factory functions, exports that are ES
      classes) and leaves open which of [toSVG], [toString], [addTo] a
      build's objects carry and what these return. *)

From Stdlib Require Import Ascii String ZArith.
From stdpp Require Import gmap strings list.

Local Open Scope string_scope.
Set Warnings "-register-all".

(** ** JavaScript values that the module handles *)

Module Js.

(** A thrown value [e], as far as the module inspects it:
    [e instanceof TypeError], [e?.message] and [String(e)]. The thrown
    values described are those that have these: a value on which reading
    [message] or [String(e)] throws in turn (an object without a usable
    [toString], a getter that throws) is none of them. *)
Record Thrown := mkThrown {
  instanceof_TypeError : bool;
  message : option string;
  to_String : string
}.

Inductive Outcome (A : Type) : Type :=
| Returns (a : A)
| Throws (e : Thrown).
Arguments Returns {A} a.
Arguments Throws {A} e.

#[global] Instance outcome_ret : MRet Outcome := λ A a, Returns a.
#[global] Instance outcome_bind : MBind Outcome := λ A B f m,
  match m with
  | Returns a => f a
  | Throws e => Throws e
  end.
#[global] Instance outcome_fmap : FMap Outcome := λ A B f m,
  match m with
  | Returns a => Returns (f a)
  | Throws e => Throws e
  end.

Definition is_Returns {A} (m : Outcome A) : bool :=
  match m with Returns _ => true | Throws _ => false end.

(** [new TypeError(msg)] *)
Definition TypeError (msg : string) : Thrown :=
  mkThrown true (Some msg) ("TypeError: " ++ msg).

(** [s.startsWith(p)] *)
Fixpoint startsWith (s p : string) {struct p} : bool :=
  match p, s with
  | EmptyString, _ => true
  | String _ _, EmptyString => false
  | String b p', String a s' =>
      if decide (a = b) then startsWith s' p' else false
  end.

(** [s.includes(p)]; also [/p/.test(s)] for a pattern [p] without
    metacharacters. *)
Fixpoint includes (s p : string) : bool :=
  startsWith s p ||
  match s with
  | EmptyString => false
  | String _ s' => includes s' p
  end.

Definition code (c : ascii) : N := N_of_ascii c.

(** Code units below 256 with a lower-case partner: A-Z, and the Latin-1
    capitals U+00C0-U+00DE without the multiplication sign U+00D7. *)
Definition is_upper (c : ascii) : bool :=
  let n := code c in
  ((65 <=? n) && (n <=? 90) ||
   (192 <=? n) && (n <=? 222) && negb (n =? 215))%N.

Definition lower_unit (c : ascii) : ascii :=
  if is_upper c then ascii_of_N (code c + 32) else c.

(** [s.toLowerCase()] *)
Fixpoint toLowerCase (s : string) : string :=
  match s with
  | EmptyString => EmptyString
  | String c s' => String (lower_unit c) (toLowerCase s')
  end.

(** White space and line terminators below 256: TAB, LF, VT, FF, CR, SP,
    NBSP. *)
Definition is_space (c : ascii) : bool :=
  let n := code c in
  ((9 <=? n) && (n <=? 13) || (n =? 32) || (n =? 160))%N.

Fixpoint trimStart (s : string) : string :=
  match s with
  | EmptyString => EmptyString
  | String c s' => if is_space c then trimStart s' else s
  end.

Fixpoint trimEnd (s : string) : string :=
  match s with
  | EmptyString => EmptyString
  | String c s' =>
      match trimEnd s' with
      | EmptyString => if is_space c then EmptyString else String c EmptyString
      | t => String c t
      end
  end.

(** [s.trim()] *)
Definition trim (s : string) : string := trimEnd (trimStart s).

(** An export that can be called ([F(...args)]) and instantiated
    ([new F(...args)]) on an argument list of type [A]. *)
Record Callable (A B : Type) := mkCallable {
  call : A → Outcome B;
  construct : A → Outcome B
}.
Arguments call {A B} _ _.
Arguments construct {A B} _ _.
Arguments mkCallable {A B} _ _.

End Js.
Export Js.

(** ** The builder shim *)

(** [e instanceof TypeError && /without 'new'/.test(e.message)] *)
Definition new_mismatch (e : Thrown) : bool :=
  instanceof_TypeError e &&
  match message e with
  | Some m => includes m "without 'new'"
  | None => false
  end.

Definition callOrNew {A B} (Ctor : Callable A B) (args : A) : Outcome B :=
  match call Ctor args with
  | Returns v => Returns v
  | Throws e =>
      if new_mismatch e then construct Ctor args else Throws e
  end.

(** What calling an ES class without [new] throws. *)
Definition class_without_new (X : string) : Thrown :=
  TypeError ("Class constructor " ++ X ++ " cannot be invoked without 'new'").

(** ** The DOM, as far as the module touches it *)

Module Dom.

Inductive Node : Type :=
| ElementNode (e : Element)
| TextNode (data : string)
| ParsedMarkup (markup : string)
with Element : Type :=
| mkElement (tagName className id : string) (childNodes : list Node).

Definition tagName (e : Element) : string :=
  match e with mkElement t _ _ _ => t end.
Definition className (e : Element) : string :=
  match e with mkElement _ c _ _ => c end.
Definition id (e : Element) : string :=
  match e with mkElement _ _ i _ => i end.
Definition childNodes (e : Element) : list Node :=
  match e with mkElement _ _ _ k => k end.

(** [document.createElement(tag)] *)
Definition createElement (tag : string) : Element := mkElement tag "" "" [].

(** [e.className = c], [e.id = i] *)
Definition set_className (c : string) (e : Element) : Element :=
  mkElement (tagName e) c (id e) (childNodes e).
Definition set_id (i : string) (e : Element) : Element :=
  mkElement (tagName e) (className e) i (childNodes e).
Definition set_childNodes (k : list Node) (e : Element) : Element :=
  mkElement (tagName e) (className e) (id e) k.

(** [e.textContent = s]: the children are replaced by one text node, by
    none when [s] is empty. *)
Definition set_textContent (s : string) (e : Element) : Element :=
  set_childNodes (if decide (s = "") then [] else [TextNode s]) e.

(** [e.innerHTML = s]: the children are replaced by the nodes parsed from
    [s], which are kept as the markup itself. *)
Definition set_innerHTML (s : string) (e : Element) : Element :=
  set_childNodes (if decide (s = "") then [] else [ParsedMarkup s]) e.

(** [e.appendChild(n)] on an element [e] and a node [n] *)
Definition appendChild (n : Node) (e : Element) : Element :=
  set_childNodes (childNodes e ++ [n]) e.

(** [c.appendChild(n)] where [c] is an element or [null], and [n] a node
    that is in no tree and does not contain [c]; [Live.appendChild] is the
    call on any two nodes of the page. *)
Definition appendChild_to (c : option Element) (n : Node) : Outcome Element :=
  match c with
  | Some e => Returns (appendChild n e)
  | None =>
      Throws (TypeError "Cannot read properties of null (reading 'appendChild')")
  end.

(** What [appendChild] throws on an argument that is not a [Node]. *)
Definition not_a_Node : Thrown :=
  TypeError
    "Failed to execute 'appendChild' on 'Node': parameter 1 is not of type 'Node'.".

End Dom.
Export Dom.

(** ** A diagram object as [mountRule] inspects it *)

(** What [diagram.toSVG()] returned: a string, a DOM node, an object with a
    [nodeType] property that is no DOM node, anything else. The DOM node
    of [SvgNode] is given by the value of its subtree: it stands for a node
    that is in no tree yet and does not contain the container, as the new
    nodes that the package builds. A node of the page, which [appendChild]
    moves or refuses, is a node of [Module Live]. *)
Inductive SvgValue :=
| SvgString (s : string)
| SvgNode (n : Node)
| SvgNodeLike
| SvgOther.

(** The three export methods; [None] when [typeof] of the property is not
    ["function"]. [addTo] acts on the children of the element it is given. *)
Record Methods := mkMethods {
  toSVG : option (Outcome SvgValue);
  toString : option (Outcome string);
  addTo : option (list Node → Outcome (list Node))
}.

(** The [diagram] argument of [mountRule]: [undefined], [null], or a value
    with properties. *)
Inductive DiagramValue :=
| Undefined
| Null
| Object (m : Methods).

(** What reading [diagram.toSVG] throws when [diagram] has no properties. *)
Definition no_properties (what : string) : Thrown :=
  TypeError ("Cannot read properties of " ++ what ++ " (reading 'toSVG')").

(** ** The imported package [RR] *)

Module RR.

(** The objects the primitives build. *)
Inductive Item : Type :=
| ItemDiagram (items : list Item)
| ItemSequence (items : list Item)
| ItemChoice (normal : Z) (items : list Item)
| ItemOptional (item : Item)
| ItemOneOrMore (item : Item) (rep : option Item)
| ItemZeroOrMore (item : Item)
| ItemTerminal (text : string)
| ItemNonTerminal (text : string)
| ItemStack (items : list Item)
| ItemComment (text : string).

Inductive ExportStyle := FactoryFunctions | EsClasses.

(** A build of the package: how the primitives are exported, and which
    export methods its objects carry. Validation of arguments inside the
    package is outside this description. *)
Record Build := mkBuild {
  style : ExportStyle;
  item_toSVG : option (Item → Outcome SvgValue);
  item_toString : option (Item → Outcome string);
  item_addTo : option (Item → list Node → Outcome (list Node))
}.

(** The export named [X] that builds [make args]. *)
Definition export {A} (b : Build) (X : string) (make : A → Item)
  : Callable A Item :=
  match style b with
  | FactoryFunctions =>
      mkCallable (λ a, Returns (make a)) (λ a, Returns (make a))
  | EsClasses =>
      mkCallable (λ _, Throws (class_without_new X)) (λ a, Returns (make a))
  end.

Definition Diagram b := export b "Diagram" ItemDiagram.
Definition Sequence b := export b "Sequence" ItemSequence.
Definition Choice b :=
  export b "Choice" (λ a : Z * list Item, ItemChoice a.1 a.2).
Definition Optional b := export b "Optional" ItemOptional.
Definition OneOrMore b :=
  export b "OneOrMore" (λ a : Item * option Item, ItemOneOrMore a.1 a.2).
Definition ZeroOrMore b := export b "ZeroOrMore" ItemZeroOrMore.
Definition Terminal b := export b "Terminal" ItemTerminal.
Definition NonTerminal b := export b "NonTerminal" ItemNonTerminal.
Definition Stack b := export b "Stack" ItemStack.
Definition Comment b := export b "Comment" ItemComment.

(** An object of the build, as a value with properties. *)
Definition object (b : Build) (d : Item) : DiagramValue :=
  Object (mkMethods ((λ f, f d) <$> item_toSVG b)
                    ((λ f, f d) <$> item_toString b)
                    ((λ f, f d) <$> item_addTo b)).

End RR.

Abbreviation Item := RR.Item.

(** Evaluation of a call [f(e1, ..., en)]: the argument expressions are
    evaluated from left to right, then [f] is applied. *)
Definition call_spread {A B} (f : list A → Outcome B) (es : list (Outcome A))
  : Outcome B := mapM (λ e, e) es ≫= f.
Definition call_1 {A B} (f : A → Outcome B) (e : Outcome A) : Outcome B :=
  e ≫= f.
Definition call_2 {A B C} (f : A → option B → Outcome C)
  (e1 : Outcome A) (e2 : Outcome B) : Outcome C :=
  a ← e1; b ← e2; f a (Some b).

Notation "f '$*' es" := (call_spread f es) (at level 65, right associativity).
Notation "f '$1' e" := (call_1 f e) (at level 65, right associativity).

Section Module_c23.

(** The build of the package that was imported. *)
Variable lib : RR.Build.

(** *** Wrapped primitives *)

Definition Diagram (a : list Item) := callOrNew (RR.Diagram lib) a.
Definition Sequence (a : list Item) := callOrNew (RR.Sequence lib) a.
Definition Choice (normal : Z) (a : list Item) :=
  callOrNew (RR.Choice lib) (normal, a).
Definition Optional (a : Item) := callOrNew (RR.Optional lib) a.
Definition OneOrMore (a : Item) (rep : option Item) :=
  callOrNew (RR.OneOrMore lib) (a, rep).
Definition ZeroOrMore (a : Item) := callOrNew (RR.ZeroOrMore lib) a.
Definition Terminal (s : string) := callOrNew (RR.Terminal lib) s.
Definition NonTerminal (s : string) := callOrNew (RR.NonTerminal lib) s.
Definition Stack (a : list Item) := callOrNew (RR.Stack lib) a.
Definition Comment (s : string) := callOrNew (RR.Comment lib) s.

Definition T (s : string) := Terminal s.
Definition NT (s : string) := NonTerminal s.

(** *** Rendering helpers *)

(** [e?.message ?? String(e)] *)
Definition error_text (e : Thrown) : string :=
  match message e with
  | Some m => m
  | None => to_String e
  end.

(** The body of the [try] in [mountRule]: the element [svgwrap] after it,
    or what was thrown. *)
Definition fill_svgwrap (diagram : DiagramValue) (svgwrap : Element)
  : Outcome Element :=
  match diagram with
  | Undefined => Throws (no_properties "undefined")
  | Null => Throws (no_properties "null")
  | Object m =>
      match toSVG m with
      | Some run =>
          svg ← run;
          match svg with
          | SvgString s => Returns (set_innerHTML s svgwrap)
          | SvgNode n => Returns (appendChild n svgwrap)
          | SvgNodeLike => Throws not_a_Node
          | SvgOther =>
              Returns (set_textContent "toSVG() returned an unexpected value."
                         svgwrap)
          end
      | None =>
          match toString m with
          | Some run => s ← run; Returns (set_innerHTML s svgwrap)
          | None =>
              match addTo m with
              | Some run =>
                  k ← run (childNodes svgwrap);
                  Returns (set_childNodes k svgwrap)
              | None =>
                  Returns
                    (set_textContent
                       "Diagram object does not support toSVG/toString/addTo in this build."
                       svgwrap)
              end
          end
      end
  end.

(** The [try]/[catch] of [mountRule]. *)
Definition try_fill_svgwrap (diagram : DiagramValue) (svgwrap : Element)
  : Element :=
  match fill_svgwrap diagram svgwrap with
  | Returns svgwrap' => svgwrap'
  | Throws e => set_textContent ("Render error: " ++ error_text e) svgwrap
  end.

Definition mountRule (container : option Element) (name : string)
  (diagram : DiagramValue) : Outcome Element :=
  let wrap := createElement "div" in
  let wrap := set_className "rule" wrap in
  let wrap := set_id ("rule-" ++ name) wrap in
  let h := createElement "h3" in
  let h := set_textContent name h in
  let wrap := appendChild (ElementNode h) wrap in
  let svgwrap := createElement "div" in
  let svgwrap := set_className "svgwrap" svgwrap in
  let svgwrap := try_fill_svgwrap diagram svgwrap in
  let wrap := appendChild (ElementNode svgwrap) wrap in
  appendChild_to container (ElementNode wrap).

Fixpoint renderRuleList (sectionRoot : option Element)
  (rules : gmap string (unit → Outcome Item)) (names : list string)
  : Outcome (option Element) :=
  match names with
  | [] => Returns sectionRoot
  | name :: names' =>
      match rules !! name with
      | None =>
          d ← Diagram $* [Comment ("No factory defined for " ++ name)];
          c ← mountRule sectionRoot name (RR.object lib d);
          renderRuleList (Some c) rules names'
      | Some factory =>
          d ← factory ();
          c ← mountRule sectionRoot name (RR.object lib d);
          renderRuleList (Some c) rules names'
      end
  end.

(** *** The precedence-chain helper: BASE ( (op) BASE )* *)

Definition chain (base : string) (ops : list string) : Outcome Item :=
  Sequence $* [
    NT base;
    ZeroOrMore $1 (Sequence $* [Choice 0 $* (T <$> ops); NT base])
  ].

(** *** Grammar rules (diagram factories) *)

(** The calls [rules.set(name, factory)], in the order of the module. *)
Definition rule_sets : list (string * (unit → Outcome Item)) := [
  ("token", λ _,
    Diagram $* [
      Choice 0 $* [
        NT "keyword"; NT "identifier"; NT "constant"; NT "string-literal";
        NT "punctuator"
      ]
    ]);
  ("preprocessing-token", λ _,
    Diagram $* [
      Choice 0 $* [
        NT "header-name"; NT "identifier"; NT "pp-number";
        NT "character-constant"; NT "string-literal"; NT "punctuator";
        NT "universal-character-name"; NT "non-white-space-character"
      ]
    ]);
  ("identifier", λ _,
    Diagram $* [
      Sequence $* [
        NT "identifier-start"; ZeroOrMore $1 (NT "identifier-continue")
      ]
    ]);
  ("universal-character-name", λ _,
    Diagram $* [
      Choice 0 $* [
        Sequence $* [T "\u"; NT "hex-quad"];
        Sequence $* [T "\U"; NT "hex-quad"; NT "hex-quad"]
      ]
    ]);
  ("constant", λ _,
    Diagram $* [
      Choice 0 $* [
        NT "integer-constant"; NT "floating-constant";
        NT "enumeration-constant"; NT "character-constant";
        NT "predefined-constant"
      ]
    ]);
  ("primary-expression", λ _,
    Diagram $* [
      Choice 0 $* [
        NT "identifier"; NT "constant"; NT "string-literal";
        Sequence $* [T "("; NT "expression"; T ")"]; NT "generic-selection"
      ]
    ]);
  ("generic-selection", λ _,
    Diagram $* [
      Sequence $* [
        T "_Generic"; T "("; NT "assignment-expression"; T ",";
        NT "generic-assoc-list"; T ")"
      ]
    ]);
  ("generic-assoc-list", λ _,
    Diagram $* [
      Sequence $* [
        NT "generic-association";
        ZeroOrMore $1 (Sequence $* [T ","; NT "generic-association"])
      ]
    ]);
  ("generic-association", λ _,
    Diagram $* [
      Choice 0 $* [
        Sequence $* [NT "type-name"; T ":"; NT "assignment-expression"];
        Sequence $* [T "default"; T ":"; NT "assignment-expression"]
      ]
    ]);
  ("argument-expression-list", λ _,
    Diagram $* [
      Sequence $* [
        NT "assignment-expression";
        ZeroOrMore $1 (Sequence $* [T ","; NT "assignment-expression"])
      ]
    ]);
  ("compound-literal", λ _,
    Diagram $* [
      Sequence $* [
        T "("; Optional $1 (NT "storage-class-specifiers"); NT "type-name";
        T ")"; NT "braced-initializer"
      ]
    ]);
  ("postfix-expression", λ _,
    postfixSuffix ← Choice 0 $* [
                      Sequence $* [T "["; NT "expression"; T "]"];
                      Sequence $* [
                        T "("; Optional $1 (NT "argument-expression-list");
                        T ")"
                      ];
                      Sequence $* [T "."; NT "identifier"];
                      Sequence $* [T "->"; NT "identifier"]; T "++"; T "--"
                    ];
    Diagram $* [
      Sequence $* [
        Choice 0 $* [NT "primary-expression"; NT "compound-literal"];
        ZeroOrMore $1 (Returns postfixSuffix)
      ]
    ]);
  ("unary-operator", λ _,
    Diagram $* [Choice 0 $* [T "&"; T "*"; T "+"; T "-"; T "~"; T "!"]]);
  ("cast-expression", λ _,
    Diagram $* [
      Sequence $* [
        ZeroOrMore $1 (Sequence $* [T "("; NT "type-name"; T ")"]);
        NT "unary-expression"
      ]
    ]);
  ("unary-expression", λ _,
    prefixOps ← ZeroOrMore $1 (Choice 0 $* [T "++"; T "--"; T "sizeof"]);
    core ← Choice 0 $* [
             NT "postfix-expression";
             Sequence $* [NT "unary-operator"; NT "cast-expression"]
           ];
    Diagram $* [
      Choice 0 $* [
        Sequence $* [Returns prefixOps; Returns core];
        Sequence $* [T "sizeof"; T "("; NT "type-name"; T ")"];
        Sequence $* [T "alignof"; T "("; NT "type-name"; T ")"]
      ]
    ]);
  ("multiplicative-expression", λ _,
    Diagram $* [chain "cast-expression" ["*"; "/"; "%"]]);
  ("additive-expression", λ _,
    Diagram $* [chain "multiplicative-expression" ["+"; "-"]]);
  ("shift-expression", λ _,
    Diagram $* [chain "additive-expression" ["<<"; ">>"]]);
  ("relational-expression", λ _,
    Diagram $* [chain "shift-expression" ["<"; ">"; "<="; ">="]]);
  ("equality-expression", λ _,
    Diagram $* [chain "relational-expression" ["=="; "!="]]);
  ("AND-expression", λ _,
    Diagram $* [chain "equality-expression" ["&"]]);
  ("exclusive-OR-expression", λ _,
    Diagram $* [chain "AND-expression" ["^"]]);
  ("inclusive-OR-expression", λ _,
    Diagram $* [chain "exclusive-OR-expression" ["|"]]);
  ("logical-AND-expression", λ _,
    Diagram $* [chain "inclusive-OR-expression" ["&&"]]);
  ("logical-OR-expression", λ _,
    Diagram $* [chain "logical-AND-expression" ["||"]]);
  ("conditional-expression", λ _,
    Diagram $* [
      Sequence $* [
        NT "logical-OR-expression";
        Optional $1
          (Sequence $* [
            T "?"; NT "expression"; T ":"; NT "conditional-expression"
          ])
      ]
    ]);
  ("assignment-operator", λ _,
    Diagram $* [
      Choice 0 $* [
        T "="; T "*="; T "/="; T "%="; T "+="; T "-="; T "<<="; T ">>=";
        T "&="; T "^="; T "|="
      ]
    ]);
  ("assignment-expression", λ _,
    Diagram $* [
      Choice 0 $* [
        NT "conditional-expression";
        Sequence $* [
          NT "unary-expression"; NT "assignment-operator";
          NT "assignment-expression"
        ]
      ]
    ]);
  ("expression", λ _,
    Diagram $* [
      Sequence $* [
        NT "assignment-expression";
        ZeroOrMore $1 (Sequence $* [T ","; NT "assignment-expression"])
      ]
    ]);
  ("constant-expression", λ _,
    Diagram $* [NT "conditional-expression"]);
  ("declaration", λ _,
    Diagram $* [
      Choice 0 $* [
        Sequence $* [
          NT "declaration-specifiers";
          Optional $1 (NT "init-declarator-list"); T ";"
        ];
        Sequence $* [
          NT "attribute-specifier-sequence"; NT "declaration-specifiers";
          NT "init-declarator-list"; T ";"
        ];
        NT "static_assert-declaration"; NT "attribute-declaration"
      ]
    ]);
  ("declaration-specifiers", λ _,
    Diagram $* [
      call_2 OneOrMore
        (Sequence $* [
          NT "declaration-specifier";
          Optional $1 (NT "attribute-specifier-sequence")
        ])
        (Comment "one or more")
    ]);
  ("declaration-specifier", λ _,
    Diagram $* [
      Choice 0 $* [
        NT "storage-class-specifier"; NT "type-specifier-qualifier";
        NT "function-specifier"
      ]
    ]);
  ("init-declarator-list", λ _,
    Diagram $* [
      Sequence $* [
        NT "init-declarator";
        ZeroOrMore $1 (Sequence $* [T ","; NT "init-declarator"])
      ]
    ]);
  ("init-declarator", λ _,
    Diagram $* [
      Choice 0 $* [
        NT "declarator";
        Sequence $* [NT "declarator"; T "="; NT "initializer"]
      ]
    ]);
  ("storage-class-specifiers", λ _,
    Diagram $* [(λ a, OneOrMore a None) $1 (NT "storage-class-specifier")]);
  ("storage-class-specifier", λ _,
    Diagram $* [
      Choice 0 $* [
        T "auto"; T "constexpr"; T "extern"; T "register"; T "static";
        T "thread_local"; T "typedef"
      ]
    ]);
  ("type-specifier-qualifier", λ _,
    Diagram $* [
      Choice 0 $* [
        NT "type-specifier"; NT "type-qualifier"; NT "alignment-specifier"
      ]
    ]);
  ("type-specifier", λ _,
    Diagram $* [
      Choice 0 $* [
        T "void"; T "char"; T "short"; T "int"; T "long"; T "float";
        T "double"; T "signed"; T "unsigned";
        Sequence $* [T "_BitInt"; T "("; NT "constant-expression"; T ")"];
        T "bool"; T "_Complex"; T "_Decimal32"; T "_Decimal64";
        T "_Decimal128"; NT "atomic-type-specifier";
        NT "struct-or-union-specifier"; NT "enum-specifier";
        NT "typedef-name"; NT "typeof-specifier"
      ]
    ]);
  ("struct-or-union-specifier", λ _,
    Diagram $* [
      Choice 0 $* [
        Sequence $* [
          NT "struct-or-union";
          Optional $1 (NT "attribute-specifier-sequence");
          Optional $1 (NT "identifier"); T "{"; NT "member-declaration-list";
          T "}"
        ];
        Sequence $* [
          NT "struct-or-union";
          Optional $1 (NT "attribute-specifier-sequence"); NT "identifier"
        ]
      ]
    ]);
  ("struct-or-union", λ _,
    Diagram $* [Choice 0 $* [T "struct"; T "union"]]);
  ("member-declaration-list", λ _,
    Diagram $* [(λ a, OneOrMore a None) $1 (NT "member-declaration")]);
  ("member-declaration", λ _,
    Diagram $* [
      Choice 0 $* [
        Sequence $* [
          Optional $1 (NT "attribute-specifier-sequence");
          NT "specifier-qualifier-list";
          Optional $1 (NT "member-declarator-list"); T ";"
        ];
        NT "static_assert-declaration"
      ]
    ]);
  ("specifier-qualifier-list", λ _,
    Diagram $* [
      (λ a, OneOrMore a None) $1
        (Sequence $* [
          NT "type-specifier-qualifier";
          Optional $1 (NT "attribute-specifier-sequence")
        ])
    ]);
  ("member-declarator-list", λ _,
    Diagram $* [
      Sequence $* [
        NT "member-declarator";
        ZeroOrMore $1 (Sequence $* [T ","; NT "member-declarator"])
      ]
    ]);
  ("member-declarator", λ _,
    Diagram $* [
      Choice 0 $* [
        NT "declarator";
        Sequence $* [
          Optional $1 (NT "declarator"); T ":"; NT "constant-expression"
        ]
      ]
    ]);
  ("enum-specifier", λ _,
    Diagram $* [
      Choice 0 $* [
        Sequence $* [
          T "enum"; Optional $1 (NT "attribute-specifier-sequence");
          Optional $1 (NT "identifier");
          Optional $1 (NT "enum-type-specifier"); T "{"; NT "enumerator-list";
          T "}"
        ];
        Sequence $* [
          T "enum"; Optional $1 (NT "attribute-specifier-sequence");
          Optional $1 (NT "identifier");
          Optional $1 (NT "enum-type-specifier"); T "{"; NT "enumerator-list";
          T ","; T "}"
        ];
        Sequence $* [
          T "enum"; NT "identifier"; Optional $1 (NT "enum-type-specifier")
        ]
      ]
    ]);
  ("enumerator-list", λ _,
    Diagram $* [
      Sequence $* [
        NT "enumerator"; ZeroOrMore $1 (Sequence $* [T ","; NT "enumerator"])
      ]
    ]);
  ("enumerator", λ _,
    Diagram $* [
      Choice 0 $* [
        Sequence $* [
          NT "enumeration-constant";
          Optional $1 (NT "attribute-specifier-sequence")
        ];
        Sequence $* [
          NT "enumeration-constant";
          Optional $1 (NT "attribute-specifier-sequence"); T "=";
          NT "constant-expression"
        ]
      ]
    ]);
  ("enum-type-specifier", λ _,
    Diagram $* [Sequence $* [T ":"; NT "specifier-qualifier-list"]]);
  ("atomic-type-specifier", λ _,
    Diagram $* [Sequence $* [T "_Atomic"; T "("; NT "type-name"; T ")"]]);
  ("typeof-specifier", λ _,
    Diagram $* [
      Choice 0 $* [
        Sequence $* [
          T "typeof"; T "("; NT "typeof-specifier-argument"; T ")"
        ];
        Sequence $* [
          T "typeof_unqual"; T "("; NT "typeof-specifier-argument"; T ")"
        ]
      ]
    ]);
  ("typeof-specifier-argument", λ _,
    Diagram $* [Choice 0 $* [NT "expression"; NT "type-name"]]);
  ("type-qualifier", λ _,
    Diagram $* [
      Choice 0 $* [T "const"; T "restrict"; T "volatile"; T "_Atomic"]
    ]);
  ("type-qualifier-list", λ _,
    Diagram $* [(λ a, OneOrMore a None) $1 (NT "type-qualifier")]);
  ("function-specifier", λ _,
    Diagram $* [Choice 0 $* [T "inline"; T "_Noreturn"]]);
  ("alignment-specifier", λ _,
    Diagram $* [
      Choice 0 $* [
        Sequence $* [T "alignas"; T "("; NT "type-name"; T ")"];
        Sequence $* [T "alignas"; T "("; NT "constant-expression"; T ")"]
      ]
    ]);
  ("declarator", λ _,
    Diagram $* [
      Sequence $* [Optional $1 (NT "pointer"); NT "direct-declarator"]
    ]);
  ("pointer", λ _,
    Diagram $* [
      (λ a, OneOrMore a None) $1
        (Sequence $* [
          T "*"; Optional $1 (NT "attribute-specifier-sequence");
          Optional $1 (NT "type-qualifier-list")
        ])
    ]);
  ("direct-declarator", λ _,
    base ← Choice 0 $* [
             Sequence $* [
               NT "identifier";
               Optional $1 (NT "attribute-specifier-sequence")
             ];
             Sequence $* [T "("; NT "declarator"; T ")"]
           ];
    arrayBracket ← Choice 0 $* [
                     Sequence $* [
                       Optional $1 (NT "type-qualifier-list");
                       Optional $1 (NT "assignment-expression")
                     ];
                     Sequence $* [
                       T "static"; Optional $1 (NT "type-qualifier-list");
                       NT "assignment-expression"
                     ];
                     Sequence $* [
                       NT "type-qualifier-list"; T "static";
                       NT "assignment-expression"
                     ];
                     Sequence $* [
                       Optional $1 (NT "type-qualifier-list"); T "*"
                     ]
                   ];
    arraySuffix ← Sequence $* [
                    T "["; Returns arrayBracket; T "]";
                    Optional $1 (NT "attribute-specifier-sequence")
                  ];
    funcSuffix ← Sequence $* [
                   T "("; Optional $1 (NT "parameter-type-list"); T ")";
                   Optional $1 (NT "attribute-specifier-sequence")
                 ];
    Diagram $* [
      Sequence $* [
        Returns base;
        ZeroOrMore $1 (Choice 0 $* [Returns arraySuffix; Returns funcSuffix])
      ]
    ]);
  ("parameter-type-list", λ _,
    Diagram $* [
      Choice 0 $* [
        NT "parameter-list";
        Sequence $* [NT "parameter-list"; T ","; T "..."]; T "..."
      ]
    ]);
  ("parameter-list", λ _,
    Diagram $* [
      Sequence $* [
        NT "parameter-declaration";
        ZeroOrMore $1 (Sequence $* [T ","; NT "parameter-declaration"])
      ]
    ]);
  ("parameter-declaration", λ _,
    Diagram $* [
      Choice 0 $* [
        Sequence $* [
          Optional $1 (NT "attribute-specifier-sequence");
          NT "declaration-specifiers"; NT "declarator"
        ];
        Sequence $* [
          Optional $1 (NT "attribute-specifier-sequence");
          NT "declaration-specifiers"; Optional $1 (NT "abstract-declarator")
        ]
      ]
    ]);
  ("type-name", λ _,
    Diagram $* [
      Sequence $* [
        NT "specifier-qualifier-list"; Optional $1 (NT "abstract-declarator")
      ]
    ]);
  ("abstract-declarator", λ _,
    Diagram $* [
      Choice 0 $* [
        NT "pointer";
        Sequence $* [
          Optional $1 (NT "pointer"); NT "direct-abstract-declarator"
        ]
      ]
    ]);
  ("direct-abstract-declarator", λ _,
    base ← Choice 0 $* [
             Sequence $* [T "("; NT "abstract-declarator"; T ")"];
             Comment "or empty base for suffix-only forms"
           ];
    arrayBracket ← Choice 0 $* [
                     Sequence $* [
                       Optional $1 (NT "type-qualifier-list");
                       Optional $1 (NT "assignment-expression")
                     ];
                     Sequence $* [
                       T "static"; Optional $1 (NT "type-qualifier-list");
                       NT "assignment-expression"
                     ];
                     Sequence $* [
                       NT "type-qualifier-list"; T "static";
                       NT "assignment-expression"
                     ];
                     Sequence $* [T "*"]
                   ];
    arraySuffix ← Sequence $* [
                    T "["; Returns arrayBracket; T "]";
                    Optional $1 (NT "attribute-specifier-sequence")
                  ];
    funcSuffix ← Sequence $* [
                   T "("; Optional $1 (NT "parameter-type-list"); T ")";
                   Optional $1 (NT "attribute-specifier-sequence")
                 ];
    Diagram $* [
      Sequence $* [
        Returns base;
        ZeroOrMore $1 (Choice 0 $* [Returns arraySuffix; Returns funcSuffix])
      ]
    ]);
  ("braced-initializer", λ _,
    Diagram $* [
      Choice 0 $* [
        Sequence $* [T "{"; T "}"];
        Sequence $* [T "{"; NT "initializer-list"; T "}"];
        Sequence $* [T "{"; NT "initializer-list"; T ","; T "}"]
      ]
    ]);
  ("initializer", λ _,
    Diagram $* [
      Choice 0 $* [NT "assignment-expression"; NT "braced-initializer"]
    ]);
  ("initializer-list", λ _,
    Diagram $* [
      Sequence $* [
        Optional $1 (NT "designation"); NT "initializer";
        ZeroOrMore $1
          (Sequence $* [
            T ","; Optional $1 (NT "designation"); NT "initializer"
          ])
      ]
    ]);
  ("designation", λ _,
    Diagram $* [Sequence $* [NT "designator-list"; T "="]]);
  ("designator-list", λ _,
    Diagram $* [(λ a, OneOrMore a None) $1 (NT "designator")]);
  ("designator", λ _,
    Diagram $* [
      Choice 0 $* [
        Sequence $* [T "["; NT "constant-expression"; T "]"];
        Sequence $* [T "."; NT "identifier"]
      ]
    ]);
  ("statement", λ _,
    Diagram $* [
      Choice 0 $* [NT "labeled-statement"; NT "unlabeled-statement"]
    ]);
  ("label", λ _,
    Diagram $* [
      Choice 0 $* [
        Sequence $* [
          Optional $1 (NT "attribute-specifier-sequence"); NT "identifier";
          T ":"
        ];
        Sequence $* [
          Optional $1 (NT "attribute-specifier-sequence"); T "case";
          NT "constant-expression"; T ":"
        ];
        Sequence $* [
          Optional $1 (NT "attribute-specifier-sequence"); T "default"; T ":"
        ]
      ]
    ]);
  ("labeled-statement", λ _,
    Diagram $* [Sequence $* [NT "label"; NT "statement"]]);
  ("unlabeled-statement", λ _,
    Diagram $* [
      Choice 0 $* [
        NT "expression-statement";
        Sequence $* [
          Optional $1 (NT "attribute-specifier-sequence"); NT "primary-block"
        ];
        Sequence $* [
          Optional $1 (NT "attribute-specifier-sequence"); NT "jump-statement"
        ]
      ]
    ]);
  ("primary-block", λ _,
    Diagram $* [
      Choice 0 $* [
        NT "compound-statement"; NT "selection-statement";
        NT "iteration-statement"
      ]
    ]);
  ("compound-statement", λ _,
    Diagram $* [
      Sequence $* [T "{"; Optional $1 (NT "block-item-list"); T "}"]
    ]);
  ("block-item-list", λ _,
    Diagram $* [(λ a, OneOrMore a None) $1 (NT "block-item")]);
  ("block-item", λ _,
    Diagram $* [
      Choice 0 $* [NT "declaration"; NT "unlabeled-statement"; NT "label"]
    ]);
  ("expression-statement", λ _,
    Diagram $* [
      Choice 0 $* [
        Sequence $* [Optional $1 (NT "expression"); T ";"];
        Sequence $* [
          NT "attribute-specifier-sequence"; NT "expression"; T ";"
        ]
      ]
    ]);
  ("selection-statement", λ _,
    Diagram $* [
      Choice 0 $* [
        Sequence $* [
          T "if"; T "("; NT "expression"; T ")"; NT "secondary-block"
        ];
        Sequence $* [
          T "if"; T "("; NT "expression"; T ")"; NT "secondary-block";
          T "else"; NT "secondary-block"
        ];
        Sequence $* [
          T "switch"; T "("; NT "expression"; T ")"; NT "secondary-block"
        ]
      ]
    ]);
  ("iteration-statement", λ _,
    Diagram $* [
      Choice 0 $* [
        Sequence $* [
          T "while"; T "("; NT "expression"; T ")"; NT "secondary-block"
        ];
        Sequence $* [
          T "do"; NT "secondary-block"; T "while"; T "("; NT "expression";
          T ")"; T ";"
        ];
        Sequence $* [
          T "for"; T "("; Optional $1 (NT "expression"); T ";";
          Optional $1 (NT "expression"); T ";"; Optional $1 (NT "expression");
          T ")"; NT "secondary-block"
        ];
        Sequence $* [
          T "for"; T "("; NT "declaration"; Optional $1 (NT "expression");
          T ";"; Optional $1 (NT "expression"); T ")"; NT "secondary-block"
        ]
      ]
    ]);
  ("jump-statement", λ _,
    Diagram $* [
      Choice 0 $* [
        Sequence $* [T "goto"; NT "identifier"; T ";"];
        Sequence $* [T "continue"; T ";"]; Sequence $* [T "break"; T ";"];
        Sequence $* [T "return"; Optional $1 (NT "expression"); T ";"]
      ]
    ]);
  ("translation-unit", λ _,
    Diagram $* [(λ a, OneOrMore a None) $1 (NT "external-declaration")]);
  ("external-declaration", λ _,
    Diagram $* [Choice 0 $* [NT "function-definition"; NT "declaration"]]);
  ("function-definition", λ _,
    Diagram $* [
      Sequence $* [
        Optional $1 (NT "attribute-specifier-sequence");
        NT "declaration-specifiers"; NT "declarator"; NT "function-body"
      ]
    ]);
  ("function-body", λ _,
    Diagram $* [NT "compound-statement"]);
  ("preprocessing-file", λ _,
    Diagram $* [Optional $1 (NT "group")]);
  ("group", λ _,
    Diagram $* [(λ a, OneOrMore a None) $1 (NT "group-part")]);
  ("group-part", λ _,
    Diagram $* [
      Choice 0 $* [
        NT "if-section"; NT "control-line"; NT "text-line";
        Sequence $* [T "#"; NT "non-directive"]
      ]
    ]);
  ("if-section", λ _,
    Diagram $* [
      Sequence $* [
        NT "if-group"; Optional $1 (NT "elif-groups");
        Optional $1 (NT "else-group"); NT "endif-line"
      ]
    ]);
  ("if-group", λ _,
    Diagram $* [
      Choice 0 $* [
        Sequence $* [
          T "#"; T "if"; NT "constant-expression"; NT "new-line";
          Optional $1 (NT "group")
        ];
        Sequence $* [
          T "#"; T "ifdef"; NT "identifier"; NT "new-line";
          Optional $1 (NT "group")
        ];
        Sequence $* [
          T "#"; T "ifndef"; NT "identifier"; NT "new-line";
          Optional $1 (NT "group")
        ]
      ]
    ]);
  ("elif-groups", λ _,
    Diagram $* [(λ a, OneOrMore a None) $1 (NT "elif-group")]);
  ("elif-group", λ _,
    Diagram $* [
      Choice 0 $* [
        Sequence $* [
          T "#"; T "elif"; NT "constant-expression"; NT "new-line";
          Optional $1 (NT "group")
        ];
        Sequence $* [
          T "#"; T "elifdef"; NT "identifier"; NT "new-line";
          Optional $1 (NT "group")
        ];
        Sequence $* [
          T "#"; T "elifndef"; NT "identifier"; NT "new-line";
          Optional $1 (NT "group")
        ]
      ]
    ]);
  ("else-group", λ _,
    Diagram $* [
      Sequence $* [T "#"; T "else"; NT "new-line"; Optional $1 (NT "group")]
    ]);
  ("endif-line", λ _,
    Diagram $* [Sequence $* [T "#"; T "endif"; NT "new-line"]]);
  ("control-line", λ _,
    Diagram $* [
      Choice 0 $* [
        Sequence $* [T "#"; T "include"; NT "pp-tokens"; NT "new-line"];
        Sequence $* [T "#"; T "embed"; NT "pp-tokens"; NT "new-line"];
        Sequence $* [
          T "#"; T "define"; NT "identifier"; NT "replacement-list";
          NT "new-line"
        ];
        Sequence $* [T "#"; T "undef"; NT "identifier"; NT "new-line"];
        Sequence $* [T "#"; T "line"; NT "pp-tokens"; NT "new-line"];
        Sequence $* [
          T "#"; T "error"; Optional $1 (NT "pp-tokens"); NT "new-line"
        ];
        Sequence $* [
          T "#"; T "warning"; Optional $1 (NT "pp-tokens"); NT "new-line"
        ];
        Sequence $* [
          T "#"; T "pragma"; Optional $1 (NT "pp-tokens"); NT "new-line"
        ];
        Sequence $* [T "#"; NT "new-line"]
      ]
    ]);
  ("text-line", λ _,
    Diagram $* [Sequence $* [Optional $1 (NT "pp-tokens"); NT "new-line"]]);
  ("non-directive", λ _,
    Diagram $* [Sequence $* [NT "pp-tokens"; NT "new-line"]]);
  ("pp-tokens", λ _,
    Diagram $* [(λ a, OneOrMore a None) $1 (NT "preprocessing-token")]);
  ("replacement-list", λ _,
    Diagram $* [Optional $1 (NT "pp-tokens")])
].


(** [const rules = new Map()] after all the [rules.set] calls: a later
    [set] of a name replaces the earlier one. *)
Definition rules : gmap string (unit → Outcome Item) :=
  foldl (λ m kv, <[kv.1 := kv.2]> m) ∅ rule_sets.

(** *** Public render entrypoint *)

(** The name lists of the calls of [renderRuleList] in [renderAllSections],
    each with the section marker of its container. *)
Definition section_lists : list (string * list string) := [
  ("lexical",
    ["token"; "preprocessing-token"; "identifier"; "universal-character-name";
     "constant"]);
  ("expressions",
    ["primary-expression"; "generic-selection"; "generic-assoc-list";
     "generic-association"; "postfix-expression"; "unary-operator";
     "unary-expression"; "cast-expression"; "multiplicative-expression";
     "additive-expression"; "shift-expression"; "relational-expression";
     "equality-expression"; "AND-expression"; "exclusive-OR-expression";
     "inclusive-OR-expression"; "logical-AND-expression";
     "logical-OR-expression"; "conditional-expression"; "assignment-operator";
     "assignment-expression"; "expression"; "constant-expression"]);
  ("declarations",
    ["declaration"; "declaration-specifiers"; "declaration-specifier";
     "init-declarator-list"; "init-declarator"; "storage-class-specifiers";
     "storage-class-specifier"; "type-specifier-qualifier"; "type-specifier";
     "struct-or-union-specifier"; "member-declaration-list";
     "member-declaration"; "specifier-qualifier-list"; "enum-specifier";
     "enumerator-list"; "enumerator"; "atomic-type-specifier";
     "typeof-specifier"; "type-qualifier"; "type-qualifier-list";
     "function-specifier"; "alignment-specifier"; "declarator"; "pointer";
     "direct-declarator"; "parameter-type-list"; "parameter-list";
     "parameter-declaration"; "type-name"; "abstract-declarator";
     "direct-abstract-declarator"; "braced-initializer"; "initializer";
     "initializer-list"; "designation"; "designator-list"; "designator"]);
  ("statements",
    ["statement"; "label"; "labeled-statement"; "unlabeled-statement";
     "compound-statement"; "block-item-list"; "block-item";
     "expression-statement"; "selection-statement"; "iteration-statement";
     "jump-statement"]);
  ("external",
    ["translation-unit"; "external-declaration"; "function-definition";
     "function-body"]);
  ("preprocessor",
    ["preprocessing-file"; "group"; "group-part"; "if-section"; "if-group";
     "elif-groups"; "elif-group"; "else-group"; "endif-line"; "control-line";
     "text-line"; "non-directive"; "pp-tokens"; "replacement-list"])
].

(** [root] is used through [byName] only: it is taken as the map from a
    section marker to the element that [querySelector] finds for it, each
    element as the value of its subtree. What is appended to the container
    of one section is then seen in that container only: this is the page
    when no container of a section lies inside another, which the
    statements on all six sections assume ([sections_apart]). *)
Definition render_section (root : gmap string Element) (marker : string)
  (names : list string) : Outcome (gmap string Element) :=
  c ← renderRuleList (root !! marker) rules names;
  Returns (match c with Some e => <[marker := e]> root | None => root end).

Definition renderAllSections (root : gmap string Element)
  : Outcome (gmap string Element) :=
  foldl (λ acc s, r ← acc; render_section r s.1 s.2) (Returns root)
    section_lists.

End Module_c23.

(** ** The rule-name filter of [App.tsx] *)

(** [filterNames], with the [query] of the component state as an argument. *)
Definition filterNames (query : string) (names : list string) : list string :=
  let q := toLowerCase (trim query) in
  if decide (q = "") then names
  else List.filter (λ n, includes (toLowerCase n) q) names.

(** ** What a diagram accepts *)

(** A diagram is read as the set of its tracks from start to end. A track
    is a word over the boxes it passes: terminal boxes and non-terminal
    boxes (references to rules, taken as symbols). *)

Module Track.

Inductive Sym :=
| Tok (text : string)
| Ref (rule : string).

#[global] Instance Sym_eq_dec : EqDecision Sym.
Proof. solve_decision. Defined.

Inductive Re :=
| Void
| Eps
| Atom (a : Sym)
| Cat (r s : Re)
| Alt (r s : Re)
| Star (r : Re).

(** Sequence, Stack and Diagram run through their items in order; Choice
    takes one of its items; Optional may skip its item; OneOrMore passes
    its item, then any number of times the repeat item (on the way back)
    and the item again; ZeroOrMore is an optional OneOrMore; a Comment is a
    label on the line. *)
Fixpoint tracks (d : Item) : Re :=
  match d with
  | RR.ItemDiagram items => foldr Cat Eps (map tracks items)
  | RR.ItemSequence items => foldr Cat Eps (map tracks items)
  | RR.ItemStack items => foldr Cat Eps (map tracks items)
  | RR.ItemChoice _ items => foldr Alt Void (map tracks items)
  | RR.ItemOptional item => Alt Eps (tracks item)
  | RR.ItemOneOrMore item rep =>
      let back := match rep with Some r => tracks r | None => Eps end in
      Cat (tracks item) (Star (Cat back (tracks item)))
  | RR.ItemZeroOrMore item => Star (tracks item)
  | RR.ItemTerminal text => Atom (Tok text)
  | RR.ItemNonTerminal text => Atom (Ref text)
  | RR.ItemComment _ => Eps
  end.

Fixpoint nullable (r : Re) : bool :=
  match r with
  | Void => false
  | Eps => true
  | Atom _ => false
  | Cat r s => nullable r && nullable s
  | Alt r s => nullable r || nullable s
  | Star _ => true
  end.

(** The tracks of [r] that start with [a], without their first box. *)
Fixpoint after (a : Sym) (r : Re) : Re :=
  match r with
  | Void => Void
  | Eps => Void
  | Atom b => if decide (a = b) then Eps else Void
  | Cat r s =>
      if nullable r then Alt (Cat (after a r) s) (after a s)
      else Cat (after a r) s
  | Alt r s => Alt (after a r) (after a s)
  | Star r => Cat (after a r) (Star r)
  end.

Definition matches (r : Re) (w : list Sym) : bool :=
  nullable (foldl (λ r a, after a r) r w).

(** [accepts d w]: the word [w] is a track of the diagram [d]. *)
Definition accepts (d : Item) (w : list Sym) : bool := matches (tracks d) w.

(** The words of a track expression. *)
Inductive Lang : Re → list Sym → Prop :=
| Lang_Eps : Lang Eps []
| Lang_Atom a : Lang (Atom a) [a]
| Lang_Cat r s u v : Lang r u → Lang s v → Lang (Cat r s) (u ++ v)
| Lang_Alt_l r s u : Lang r u → Lang (Alt r s) u
| Lang_Alt_r r s u : Lang s u → Lang (Alt r s) u
| Lang_Star_nil r : Lang (Star r) []
| Lang_Star_app r u v : Lang r u → Lang (Star r) v → Lang (Star r) (u ++ v).

End Track.
Export Track.

(** The texts of the non-terminal boxes, of the terminal boxes and of the
    comments of a diagram, from left to right. *)
Fixpoint nonterminals (d : Item) : list string :=
  match d with
  | RR.ItemDiagram items | RR.ItemSequence items | RR.ItemStack items
  | RR.ItemChoice _ items => concat (map nonterminals items)
  | RR.ItemOptional item | RR.ItemZeroOrMore item => nonterminals item
  | RR.ItemOneOrMore item rep =>
      nonterminals item ++
      match rep with Some r => nonterminals r | None => [] end
  | RR.ItemNonTerminal text => [text]
  | RR.ItemTerminal _ | RR.ItemComment _ => []
  end.

Fixpoint terminals (d : Item) : list string :=
  match d with
  | RR.ItemDiagram items | RR.ItemSequence items | RR.ItemStack items
  | RR.ItemChoice _ items => concat (map terminals items)
  | RR.ItemOptional item | RR.ItemZeroOrMore item => terminals item
  | RR.ItemOneOrMore item rep =>
      terminals item ++ match rep with Some r => terminals r | None => [] end
  | RR.ItemTerminal text => [text]
  | RR.ItemNonTerminal _ | RR.ItemComment _ => []
  end.

Fixpoint comments (d : Item) : list string :=
  match d with
  | RR.ItemDiagram items | RR.ItemSequence items | RR.ItemStack items
  | RR.ItemChoice _ items => concat (map comments items)
  | RR.ItemOptional item | RR.ItemZeroOrMore item => comments item
  | RR.ItemOneOrMore item rep =>
      comments item ++ match rep with Some r => comments r | None => [] end
  | RR.ItemComment text => [text]
  | RR.ItemTerminal _ | RR.ItemNonTerminal _ => []
  end.

(** ** Vocabulary of the statements *)

(** The titled block of a rule: [div.rule#rule-<name>] holding the heading
    [h3] with the name and [div.svgwrap] with [content]. *)
Definition rule_block (name : string) (content : list Node) : Node :=
  ElementNode
    (mkElement "div" "rule" ("rule-" ++ name) [
       ElementNode
         (mkElement "h3" "" ""
            (if decide (name = "") then [] else [TextNode name]));
       ElementNode (mkElement "div" "svgwrap" "" content)
     ]).

(** What [div.svgwrap] holds once [mountRule] is through with [diagram]. *)
Definition shown (diagram : DiagramValue) : list Node :=
  childNodes
    (try_fill_svgwrap diagram (set_className "svgwrap" (createElement "div"))).

Definition block_id (n : Node) : option string :=
  match n with
  | ElementNode e => Some (id e)
  | _ => None
  end.

Definition block_heading (n : Node) : option (list Node) :=
  match n with
  | ElementNode (mkElement _ _ _ (ElementNode h :: _)) => Some (childNodes h)
  | _ => None
  end.

(** The production [E : X | E op X] with [op] among [ops], over boxes. *)
Inductive LeftRec (X : string) (ops : list string) : list Sym → Prop :=
| LeftRec_operand : LeftRec X ops [Ref X]
| LeftRec_binary w o :
    LeftRec X ops w → o ∈ ops → LeftRec X ops (w ++ [Tok o; Ref X]).

(** The operand followed by the (operator, operand) pairs of [os]. *)
Definition operand_then_pairs (X : string) (os : list string) : list Sym :=
  Ref X :: concat (map (λ o, [Tok o; Ref X]) os).

(** The tracks of a choice among the terminals [ops]. *)
Definition operators (ops : list string) : Re :=
  foldr Alt Void (map (λ o, Atom (Tok o)) ops).

(** The item that [chain base ops] is to build. *)
Definition chain_item (base : string) (ops : list string) : Item :=
  RR.ItemSequence [
    RR.ItemNonTerminal base;
    RR.ItemZeroOrMore
      (RR.ItemSequence [
         RR.ItemChoice 0 (map RR.ItemTerminal ops);
         RR.ItemNonTerminal base
       ])
  ].

(** *** Readings of the specification that are compared with the code *)

(** "Fallback strategies, tried in order, first success wins": each export
    on its own, and the first of them that does not throw. *)
Definition via_toSVG (m : Methods) (svgwrap : Element) : Outcome Element :=
  match toSVG m with
  | Some run =>
      svg ← run;
      match svg with
      | SvgString s => Returns (set_innerHTML s svgwrap)
      | SvgNode n => Returns (appendChild n svgwrap)
      | SvgNodeLike => Throws not_a_Node
      | SvgOther =>
          Returns
            (set_textContent "toSVG() returned an unexpected value." svgwrap)
      end
  | None => Throws (TypeError "diagram.toSVG is not a function")
  end.

Definition via_toString (m : Methods) (svgwrap : Element) : Outcome Element :=
  match toString m with
  | Some run => s ← run; Returns (set_innerHTML s svgwrap)
  | None => Throws (TypeError "diagram.toString is not a function")
  end.

Definition via_addTo (m : Methods) (svgwrap : Element) : Outcome Element :=
  match addTo m with
  | Some run =>
      k ← run (childNodes svgwrap); Returns (set_childNodes k svgwrap)
  | None => Throws (TypeError "diagram.addTo is not a function")
  end.

Definition or_else {A} (a b : Outcome A) : Outcome A :=
  match a with
  | Returns x => Returns x
  | Throws _ => b
  end.

Definition shown_first_success (diagram : DiagramValue) : list Node :=
  let svgwrap := set_className "svgwrap" (createElement "div") in
  let tried :=
    match diagram with
    | Undefined => Throws (no_properties "undefined")
    | Null => Throws (no_properties "null")
    | Object m =>
        or_else (via_toSVG m svgwrap)
          (or_else (via_toString m svgwrap) (via_addTo m svgwrap))
    end in
  childNodes
    match tried with
    | Returns svgwrap' => svgwrap'
    | Throws e => set_textContent ("Render error: " ++ error_text e) svgwrap
    end.

Definition mountRule_first_success (container : option Element)
  (name : string) (diagram : DiagramValue) : Outcome Element :=
  appendChild_to container (rule_block name (shown_first_success diagram)).

(** "Keeps exactly the names whose lowercased form contains the lowercased
    query". *)
Definition filterNames_lowercased_query (query : string)
  (names : list string) : list string :=
  List.filter (λ n, includes (toLowerCase n) (toLowerCase query)) names.

(** "A placeholder stating that no factory is defined" for the reference
    [r], inside the description [d] that is handed to the export. *)
Definition has_placeholder_for (r : string) (d : Item) : Prop :=
  ("No factory defined for " ++ r) ∈ comments d.

(** "Every non-terminal reference is a key of the registry, or a placeholder
    is rendered for it". *)
Definition references_keyed_or_replaced (lib : RR.Build) : Prop :=
  ∀ name f d r,
    rules lib !! name = Some f → f () = Returns d → r ∈ nonterminals d →
    is_Some (rules lib !! r) ∨ has_placeholder_for r d.

(** Two builds of the package for examples: ES classes whose objects carry
    [toSVG] returning markup, and factory functions whose objects carry no
    export method of their own but [toString]. *)
Definition lib_classes : RR.Build :=
  RR.mkBuild RR.EsClasses (Some (λ _, Returns (SvgString "<svg/>"))) None None.
Definition lib_factories : RR.Build :=
  RR.mkBuild RR.FactoryFunctions None (Some (λ _, Returns "<svg/>")) None.

(** Exports for examples: a factory function, an ES class, and an export
    that rejects its arguments. *)
Definition plain_Terminal : Callable string Item :=
  mkCallable (λ s, Returns (RR.ItemTerminal s))
             (λ s, Returns (RR.ItemTerminal s)).
Definition class_Terminal : Callable string Item :=
  mkCallable (λ _, Throws (class_without_new "Terminal"))
             (λ s, Returns (RR.ItemTerminal s)).
Definition range_error : Thrown :=
  mkThrown false (Some "The first argument of Choice() must be an index.")
    "RangeError: The first argument of Choice() must be an index.".
Definition failing_Choice : Callable (Z * list Item) Item :=
  mkCallable (λ _, Throws range_error) (λ _, Throws range_error).

(** The names that the descriptions of the registered rules refer to, and
    those among them that are no key of the registry. *)
Definition referenced_names (lib : RR.Build) : list string :=
  remove_dups
    (concat
       (map (λ kv : string * (unit → Outcome Item),
               match kv.2 () with
               | Returns d => nonterminals d
               | Throws _ => []
               end)
          (rule_sets lib))).

Definition references_without_rule (lib : RR.Build) : list string :=
  List.filter (λ r, bool_decide (r ∉ (rule_sets lib).*1))
    (referenced_names lib).

(** No comment of [d] is a "No factory defined for ..." placeholder. *)
Definition no_placeholder (d : Item) : bool :=
  forallb (λ c, negb (startsWith c "No factory defined for ")) (comments d).

(** The description that [renderRuleList] mounts for [name]: what the
    factory of [name] returns, or the placeholder diagram. *)
Definition placeholder (name : string) : Item :=
  RR.ItemDiagram [RR.ItemComment ("No factory defined for " ++ name)].

Definition described (reg : gmap string (unit → Outcome Item))
  (name : string) : Outcome Item :=
  match reg !! name with
  | Some factory => factory ()
  | None => Returns (placeholder name)
  end.

(** The note that stands for the diagram after a throw, and the nodes
    parsed from a markup string. *)
Definition error_note (e : Thrown) : list Node :=
  [TextNode ("Render error: " ++ error_text e)].

Definition parsed (s : string) : list Node :=
  if decide (s = "") then [] else [ParsedMarkup s].

(** The block that [renderRuleList] mounts for [name]. *)
Definition mounted_block (lib : RR.Build)
  (reg : gmap string (unit → Outcome Item)) (name : string) : Node :=
  rule_block name
    (shown (RR.object lib
              match described reg name with
              | Returns d => d
              | Throws _ => placeholder name
              end)).

(** The description of "multiplicative-expression". *)
Definition multiplicative_item : Item :=
  RR.ItemDiagram [chain_item "cast-expression" ["*"; "/"; "%"]].

(** A diagram object for examples: [toSVG] throws, [toString] returns
    markup. *)
Definition layout_error : Thrown :=
  mkThrown false (Some "getBBox is not available")
    "Error: getBBox is not available".
Definition svg_throws_string_works : DiagramValue :=
  Object
    (mkMethods (Some (Throws layout_error)) (Some (Returns "<svg/>")) None).

(** A registry of one rule, for examples. *)
Definition token_only : gmap string (unit → Outcome Item) :=
  {[ "token" := λ _, Returns (RR.ItemTerminal "int") ]}.

(** The container [c] with [blocks] appended, and the children of the
    container that a rendering returns. *)
Definition with_blocks (c : Element) (blocks : list Node) : option Element :=
  Some (set_childNodes (childNodes c ++ blocks) c).

Definition children_after (r : Outcome (option Element))
  : Outcome (option (list Node)) :=
  fmap (M:=Outcome) (fmap (M:=option) childNodes) r.

(** ** Further vocabulary *)

(** What [container.appendChild] throws on a [null] container. *)
Definition null_container : Thrown :=
  TypeError "Cannot read properties of null (reading 'appendChild')".


(** One step of [renderAllSections]: the call of [renderRuleList] for the
    section [s], unless an earlier call threw. *)
Definition section_step (lib : RR.Build)
  (acc : Outcome (gmap string Element)) (s : string * list string)
  : Outcome (gmap string Element) :=
  r ← acc; render_section lib r s.1 s.2.

(** The levels of binary operators that are set with [chain]: the rule,
    its operand rule and its operators. *)
Definition precedence_levels : list (string * (string * list string)) := [
  ("multiplicative-expression", ("cast-expression", ["*"; "/"; "%"]));
  ("additive-expression", ("multiplicative-expression", ["+"; "-"]));
  ("shift-expression", ("additive-expression", ["<<"; ">>"]));
  ("relational-expression", ("shift-expression", ["<"; ">"; "<="; ">="]));
  ("equality-expression", ("relational-expression", ["=="; "!="]));
  ("AND-expression", ("equality-expression", ["&"]));
  ("exclusive-OR-expression", ("AND-expression", ["^"]));
  ("inclusive-OR-expression", ("exclusive-OR-expression", ["|"]));
  ("logical-AND-expression", ("inclusive-OR-expression", ["&&"]));
  ("logical-OR-expression", ("logical-AND-expression", ["||"]))
].

(** The registry as the list of the names with what their factories
    return. *)
Definition description_list (lib : RR.Build) : list (string * Outcome Item) :=
  map (λ kv : string * (unit → Outcome Item), (kv.1, kv.2 ())) (rule_sets lib).

(** Every code unit of [s] is white space. *)
Fixpoint all_spaces (s : string) : bool :=
  match s with
  | EmptyString => true
  | String c s' => is_space c && all_spaces s'
  end.

(** [s] does not start with white space. *)
Definition starts_clean (s : string) : Prop :=
  match s with
  | EmptyString => True
  | String c _ => is_space c = false
  end.

(** [filteredBySection] of [App.tsx]. [SECTION_ORDER] and [SECTION_RULES]
    are imports of the component; they are taken as arguments, the record
    [SECTION_RULES] as the function from a section to its names. *)
Definition filteredBySection (SECTION_ORDER : list string)
  (SECTION_RULES : string → list string) (query : string)
  : gmap string (list string) :=
  foldl (λ out s, <[s := filterNames query (SECTION_RULES s)]> out) ∅
    SECTION_ORDER.

(** For examples: a registry whose second rule has a factory that throws,
    a root with the six section containers, and the imports of [App.tsx]
    for two sections. *)
Definition broken_rule : gmap string (unit → Outcome Item) :=
  <[ "broken" := λ _, Throws range_error ]> token_only.

Definition page_root : gmap string Element :=
  list_to_map
    (map (λ s : string * list string, (s.1, mkElement "div" "" s.1 []))
       section_lists).

Definition two_sections (s : string) : list string :=
  if decide (s = "declarations") then ["declarator"; "pointer"]
  else if decide (s = "statements") then ["statement"; "label"]
  else [].



(** ** The page as a store of nodes *)

(** Above, an element is the value of its subtree. Here a node is a cell
    of the page with an identity: [appendChild] moves a node that has a
    parent away from it, and refuses a child that contains the parent.
    This is the reading on which it can be said what two renderings share. *)

Module Live.

Local Open Scope nat_scope.

Abbreviation ref := nat.

Inductive Kind :=
| ElementKind (tagName className id : string) (childNodes : list ref)
| TextKind (data : string)
| MarkupKind (markup : string).

Record Cell := mkCell {
  kind : Kind;
  parentNode : option ref
}.

(** The nodes created so far, attached or not, and the next identity. *)
Record Page := mkPage {
  cells : gmap ref Cell;
  next : ref
}.

(** A computation on the page: it returns or throws, and leaves the page
    as it has changed it up to then. *)
Definition Run (A : Type) : Type := Page → Outcome A * Page.

Definition ret {A} (a : A) : Run A := λ p, (Returns a, p).
Definition throw {A} (e : Thrown) : Run A := λ p, (Throws e, p).
Definition lift {A} (o : Outcome A) : Run A := λ p, (o, p).
Definition bind {A B} (m : Run A) (f : A → Run B) : Run B :=
  λ p, match m p with
       | (Returns a, p') => f a p'
       | (Throws e, p') => (Throws e, p')
       end.
Definition try_catch {A} (body : Run A) (handler : Thrown → Run A) : Run A :=
  λ p, match body p with
       | (Returns a, p') => (Returns a, p')
       | (Throws e, p') => handler e p'
       end.

#[global] Instance run_ret : MRet Run := @ret.
#[global] Instance run_bind : MBind Run := λ A B f m, bind m f.

Definition children (k : Kind) : list ref :=
  match k with
  | ElementKind _ _ _ ks => ks
  | _ => []
  end.

Definition with_children (ks : list ref) (c : Cell) : Cell :=
  mkCell
    match kind c with
    | ElementKind t k i _ => ElementKind t k i ks
    | other => other
    end
    (parentNode c).

Definition with_parent (y : option ref) (c : Cell) : Cell :=
  mkCell (kind c) y.

Definition update (r : ref) (f : Cell → Cell) (p : Page) : Page :=
  mkPage (alter f r (cells p)) (next p).

(** A new node, without a parent. *)
Definition create (k : Kind) (parent : option ref) : Page → ref * Page :=
  λ p, (next p, mkPage (<[next p := mkCell k parent]> (cells p)) (S (next p))).

(** [document.createElement(tag)] *)
Definition createElement (tag : string) : Run ref :=
  λ p, let '(r, p') := create (ElementKind tag "" "" []) None p in
       (Returns r, p').

(** [e.className = c], [e.id = i] *)
Definition set_className (c : string) (r : ref) : Run unit :=
  λ p, (Returns (),
        update r
          (λ cell,
             mkCell
               match kind cell with
               | ElementKind t _ i ks => ElementKind t c i ks
               | other => other
               end
               (parentNode cell))
          p).

Definition set_id (i : string) (r : ref) : Run unit :=
  λ p, (Returns (),
        update r
          (λ cell,
             mkCell
               match kind cell with
               | ElementKind t c _ ks => ElementKind t c i ks
               | other => other
               end
               (parentNode cell))
          p).

(** The node [r] leaves its parent, when it has one. *)
Definition detach (r : ref) (p : Page) : Page :=
  match cells p !! r with
  | Some (mkCell _ (Some y)) =>
      update r (with_parent None)
        (update y
           (λ cell,
              with_children
                (List.filter (λ k, negb (Nat.eqb k r)) (children (kind cell))) cell)
           p)
  | _ => p
  end.

(** All children of [r] leave it. *)
Definition remove_children (r : ref) (p : Page) : Page :=
  match cells p !! r with
  | Some cell =>
      update r (with_children [])
        (foldr (λ k q, update k (with_parent None) q) p
           (children (kind cell)))
  | None => p
  end.

(** [e.textContent = s] and [e.innerHTML = s]: the children leave [e];
    for a non-empty [s] a new text node, or the nodes parsed from the
    markup, become its children. *)
Definition replace_children (k : Kind) (empty : bool) (r : ref) : Run unit :=
  λ p, let p := remove_children r p in
       if empty then (Returns (), p)
       else let '(t, p) := create k (Some r) p in
            (Returns (), update r (with_children [t]) p).

Definition set_textContent (s : string) (r : ref) : Run unit :=
  replace_children (TextKind s) (bool_decide (s = "")) r.

Definition set_innerHTML (s : string) (r : ref) : Run unit :=
  replace_children (MarkupKind s) (bool_decide (s = "")) r.

(** [a] is [b] or an ancestor of [b], looked for along the parents of
    [b]; the chain of parents is no longer than the page has nodes. *)
Fixpoint inclusive_ancestor (fuel : nat) (p : Page) (a b : ref) : bool :=
  Nat.eqb a b ||
  match fuel with
  | O => false
  | S fuel' =>
      match cells p !! b with
      | Some (mkCell _ (Some y)) => inclusive_ancestor fuel' p a y
      | _ => false
      end
  end.

(** What [appendChild] throws when the child contains the parent, or the
    parent is no element. *)
Definition hierarchy_error : Thrown :=
  mkThrown false
    (Some
       "Failed to execute 'appendChild' on 'Node': The new child element contains the parent.")
    "HierarchyRequestError: Failed to execute 'appendChild' on 'Node': The new child element contains the parent.".

(** [parent.appendChild(child)]: the child leaves its former parent and
    becomes the last child of [parent]. *)
Definition appendChild (child parent : ref) : Run unit :=
  λ p, match cells p !! parent with
       | Some (mkCell (ElementKind _ _ _ _) _) =>
           if inclusive_ancestor (size (cells p)) p child parent
           then (Throws hierarchy_error, p)
           else
             let p := detach child p in
             (Returns (),
              update parent
                (λ cell,
                   with_children (children (kind cell) ++ [child])%list cell)
                (update child (with_parent (Some parent)) p))
       | _ => (Throws hierarchy_error, p)
       end.

(** [c.appendChild(n)] where [c] is an element or [null] *)
Definition appendChild_to (container : option ref) (child : ref) : Run unit :=
  match container with
  | Some c => appendChild child c
  | None =>
      throw
        (TypeError "Cannot read properties of null (reading 'appendChild')")
  end.

(** A new subtree of the page for the value [n], below [parent]. *)
Fixpoint alloc_node (parent : option ref) (n : Node) (p : Page)
  {struct n} : ref * Page :=
  match n with
  | ElementNode e => alloc_element parent e p
  | TextNode s => create (TextKind s) parent p
  | ParsedMarkup s => create (MarkupKind s) parent p
  end
with alloc_element (parent : option ref) (e : Element) (p : Page)
  {struct e} : ref * Page :=
  match e with
  | mkElement t c i ns =>
      let '(r, p) := create (ElementKind t c i []) parent p in
      let '(rs, p) :=
        (fix alloc_all (ns : list Node) (p : Page) : list ref * Page :=
           match ns with
           | [] => ([], p)
           | n :: ns' =>
               let '(k, p) := alloc_node (Some r) n p in
               let '(ks, p) := alloc_all ns' p in
               (k :: ks, p)
           end) ns p in
      (r, update r (with_children rs) p)
  end.

Definition alloc_all (parent : option ref)
  : list Node → Page → list ref * Page :=
  fix alloc_all (ns : list Node) (p : Page) : list ref * Page :=
    match ns with
    | [] => ([], p)
    | n :: ns' =>
        let '(k, p) := alloc_node parent n p in
        let '(ks, p) := alloc_all ns' p in
        (k :: ks, p)
    end.

(** The subtree of the node [r] as a value, read to the depth [fuel]. *)
Fixpoint snapshot (fuel : nat) (p : Page) (r : ref) : Node :=
  match cells p !! r with
  | Some (mkCell (ElementKind t c i ks) _) =>
      ElementNode
        (mkElement t c i
           match fuel with
           | O => []
           | S fuel' => map (snapshot fuel' p) ks
           end)
  | Some (mkCell (TextKind s) _) => TextNode s
  | Some (mkCell (MarkupKind s) _) => ParsedMarkup s
  | None => TextNode ""
  end.

(** *** Diagram objects on the page *)

(** What [diagram.toSVG()] returned, a node by its identity. *)
Inductive Exported :=
| ExpString (s : string)
| ExpNode (r : ref)
| ExpNodeLike
| ExpOther.

Record Methods := mkMethods {
  toSVG : option (Run Exported);
  toString : option (Run string);
  addTo : option (ref → Run unit)
}.

Inductive DiagramValue :=
| Undefined
| Null
| Object (m : Methods).

(** An object of a build of the package: each export builds new nodes. *)
Definition object (b : RR.Build) (d : Item) : DiagramValue :=
  Object
    (mkMethods
       ((λ f, svg ← lift (f d);
              match svg return Run Exported with
              | SvgString s => ret (ExpString s)
              | SvgNode n =>
                  λ p, let '(r, p) := alloc_node None n p in
                       (Returns (ExpNode r), p)
              | SvgNodeLike => ret ExpNodeLike
              | SvgOther => ret ExpOther
              end) <$> RR.item_toSVG b)
       ((λ f, lift (f d)) <$> RR.item_toString b)
       ((λ f svgwrap,
           λ p, let former :=
                  match cells p !! svgwrap with
                  | Some cell =>
                      map (snapshot (size (cells p)) p) (children (kind cell))
                  | None => []
                  end in
                match f d former with
                | Returns ns =>
                    let p := remove_children svgwrap p in
                    let '(rs, p) := alloc_all (Some svgwrap) ns p in
                    (Returns (), update svgwrap (with_children rs) p)
                | Throws e => (Throws e, p)
                end) <$> RR.item_addTo b)).

(** *** Rendering helpers on the page *)

Definition fill_svgwrap (diagram : DiagramValue) (svgwrap : ref)
  : Run unit :=
  match diagram with
  | Undefined => throw (no_properties "undefined")
  | Null => throw (no_properties "null")
  | Object m =>
      match toSVG m with
      | Some run =>
          svg ← run;
          match svg with
          | ExpString s => set_innerHTML s svgwrap
          | ExpNode r => appendChild r svgwrap
          | ExpNodeLike => throw not_a_Node
          | ExpOther =>
              set_textContent "toSVG() returned an unexpected value." svgwrap
          end
      | None =>
          match toString m with
          | Some run => s ← run; set_innerHTML s svgwrap
          | None =>
              match addTo m with
              | Some run => run svgwrap
              | None =>
                  set_textContent
                    "Diagram object does not support toSVG/toString/addTo in this build."
                    svgwrap
              end
          end
      end
  end.

Definition mountRule (container : option ref) (name : string)
  (diagram : DiagramValue) : Run unit :=
  wrap ← createElement "div";
  set_className "rule" wrap;;
  set_id ("rule-" ++ name) wrap;;
  h ← createElement "h3";
  set_textContent name h;;
  appendChild h wrap;;
  svgwrap ← createElement "div";
  set_className "svgwrap" svgwrap;;
  try_catch (fill_svgwrap diagram svgwrap)
    (λ e, set_textContent ("Render error: " ++ error_text e) svgwrap);;
  appendChild svgwrap wrap;;
  appendChild_to container wrap.

Fixpoint renderRuleList (lib : RR.Build) (sectionRoot : option ref)
  (rules : gmap string (unit → Outcome Item)) (names : list string)
  : Run unit :=
  match names with
  | [] => ret ()
  | name :: names' =>
      match rules !! name with
      | None =>
          d ← lift (Diagram lib $*
                      [Comment lib ("No factory defined for " ++ name)]);
          mountRule sectionRoot name (object lib d);;
          renderRuleList lib sectionRoot rules names'
      | Some factory =>
          d ← lift (factory ());
          mountRule sectionRoot name (object lib d);;
          renderRuleList lib sectionRoot rules names'
      end
  end.

(** *** Reading the page *)

(** [Tree S p r n]: the subtree of the node [r] of the page [p] is the
    value [n], and all its nodes are in [S]. *)
Inductive Tree (S : ref → Prop) (p : Page) : ref → Node → Prop :=
| Tree_text r s y :
    S r → cells p !! r = Some (mkCell (TextKind s) y) →
    Tree S p r (TextNode s)
| Tree_markup r s y :
    S r → cells p !! r = Some (mkCell (MarkupKind s) y) →
    Tree S p r (ParsedMarkup s)
| Tree_element r t c i ks ns y :
    S r → cells p !! r = Some (mkCell (ElementKind t c i ks) y) →
    Trees S p ks ns →
    Tree S p r (ElementNode (mkElement t c i ns))
with Trees (S : ref → Prop) (p : Page) : list ref → list Node → Prop :=
| Trees_nil : Trees S p [] []
| Trees_cons r n rs ns :
    Tree S p r n → Trees S p rs ns → Trees S p (r :: rs) (n :: ns).

Scheme Tree_mind := Minimality for Tree Sort Prop
  with Trees_mind := Minimality for Trees Sort Prop.

Definition anywhere (r : ref) : Prop := True.
Definition between (a b : ref) (r : ref) : Prop := a ≤ r ∧ r < b.

(** The page [p'] has all nodes of [p] as they were, but for [c]. *)
Definition grown_except (c : option ref) (p p' : Page) : Prop :=
  next p ≤ next p' ∧
  ∀ x, x < next p → Some x ≠ c → cells p' !! x = cells p !! x.

(** What a new subtree is: its nodes are new, its root is the next node
    and has the parent asked for, and the nodes that were there are as
    they were. *)
Definition allocated (parent : option ref) (p : Page)
  (n : Node) (rp : ref * Page) : Prop :=
  rp.1 = next p ∧ next p < next rp.2 ∧
  (∀ x, x < next p → cells rp.2 !! x = cells p !! x) ∧
  Tree (between (next p) (next rp.2)) rp.2 rp.1 n ∧
  ∃ k, cells rp.2 !! rp.1 = Some (mkCell k parent).

Definition allocated_all (p : Page) (ns : list Node)
  (rp : list ref * Page) : Prop :=
  next p ≤ next rp.2 ∧
  (∀ x, x < next p → cells rp.2 !! x = cells p !! x) ∧
  Trees (between (next p) (next rp.2)) rp.2 rp.1 ns.

(** What filling an element [s] that had no children leaves: its
    children are new nodes that read as [ns], it has no parent still, and
    the other nodes that were there are as they were. *)
Definition filled (s : ref) (t c i : string) (p : Page) (ns : list Node)
  (p' : Page) : Prop :=
  next p ≤ next p' ∧
  (∃ rs, cells p' !! s = Some (mkCell (ElementKind t c i rs) None) ∧
         Trees (between (next p) (next p')) p' rs ns) ∧
  ∀ x, x < next p → x ≠ s → cells p' !! x = cells p !! x.

(** No node is in both sets. *)
Definition apart (S1 S2 : ref → Prop) : Prop := ∀ x, S1 x → ¬ S2 x.

(** The container [c] and the nodes created from [a] up to [b]. *)
Definition container_and_new (c a b : ref) (x : ref) : Prop :=
  x = c ∨ between a b x.

(** A diagram object that is no object of the package: its [toSVG] hands
    out the one node [r] at every call. *)
Definition cached (r : ref) : DiagramValue :=
  Object (mkMethods (Some (ret (ExpNode r))) None None).

Definition empty_page : Page := mkPage ∅ 0.

(** Two sections and a node, and the node mounted in both sections. *)
Definition mount_cached_twice : Run (ref * ref) :=
  c1 ← createElement "section";
  c2 ← createElement "section";
  r ← createElement "svg";
  mountRule (Some c1) "a" (cached r);;
  mountRule (Some c2) "a" (cached r);;
  ret (c1, c2).

(** A diagram object whose [toSVG] returns the container it is mounted in. *)
Definition mount_container_in_itself : Run unit :=
  c ← createElement "section";
  mountRule (Some c) "a" (cached c).

End Live.

(** * Properties *)

(** ** Strings *)

Lemma string_app_cons a (s t : string) : String a s ++ t = String a (s ++ t).
Proof. reflexivity. Qed.

Lemma string_app_nil (t : string) : "" ++ t = t.
Proof. reflexivity. Qed.

Lemma startsWith_spec s p :
  startsWith s p = true ↔ ∃ t, s = p ++ t.
Proof.
  revert s. induction p as [|b p IH]; intros s; simpl.
  - split; [intros _; by exists s | done].
  - destruct s as [|a s]; simpl.
    + split; [done | intros [t Ht]; discriminate].
    + case_decide as Hab; [subst b|].
      * rewrite IH. split; intros [t Ht]; exists t;
          rewrite string_app_cons in *; congruence.
      * split; [done|]. intros [t Ht]. rewrite string_app_cons in Ht.
        congruence.
Qed.

Lemma includes_spec s p :
  includes s p = true ↔ ∃ pre post, s = pre ++ p ++ post.
Proof.
  induction s as [|a s IH]; simpl.
  - rewrite orb_false_r, startsWith_spec. split.
    + intros [t Ht]. by exists "", t.
    + intros (pre & post & H). destruct pre; [by exists post|done].
  - rewrite orb_true_iff, startsWith_spec, IH. split.
    + intros [[t Ht] | (pre & post & H)].
      * by exists "", t.
      * exists (String a pre), post. by rewrite string_app_cons, H.
    + intros (pre & post & H). destruct pre as [|c pre].
      * left. by exists post.
      * right. exists pre, post. rewrite string_app_cons in H. congruence.
Qed.

Lemma string_app_assoc (a b c : string) : (a ++ b) ++ c = a ++ b ++ c.
Proof.
  induction a as [|x a IH]; [done|]. by rewrite !string_app_cons, IH.
Qed.

Lemma string_app_empty_r (a : string) : a ++ "" = a.
Proof.
  induction a as [|x a IH]; [done|]. by rewrite string_app_cons, IH.
Qed.

Lemma includes_empty s : includes s "" = true.
Proof. destruct s; reflexivity. Qed.

Lemma includes_app_r (a b p : string) :
  includes b p = true → includes (a ++ b) p = true.
Proof.
  intros H. induction a as [|c a IH]; [done|].
  rewrite string_app_cons. simpl. rewrite IH. apply orb_true_r.
Qed.

Example trim_blanks : trim "  a b  " = "a b".
Proof. reflexivity. Qed.

Example toLowerCase_letters :
  toLowerCase "Init-Declarator" = "init-declarator".
Proof. reflexivity. Qed.

Example includes_inner : includes "init-declarator" "declarator" = true.
Proof. reflexivity. Qed.

(** ** The builder shim *)

Lemma new_mismatch_class X : new_mismatch (class_without_new X) = true.
Proof.
  unfold new_mismatch, class_without_new, TypeError. simpl.
  by do 2 apply includes_app_r.
Qed.

Lemma callOrNew_export {A} lib X (make : A → Item) a :
  callOrNew (RR.export lib X make) a = Returns (make a).
Proof.
  unfold callOrNew, RR.export. destruct (RR.style lib); simpl; [done|].
  by rewrite new_mismatch_class.
Qed.

(** C2. The shim returns what the export returns when it is called, and
    what [new] gives when the call fails for the lack of [new] (the error
    an ES class throws); a call that throws anything else, a [TypeError]
    with another message or an error of another kind, throws the same value
    out of the shim. On an export of the package, in either style, the shim
    returns the object built. *)
Theorem callOrNew_contract {A B} (Ctor : Callable A B) (args : A) :
  (∀ v, call Ctor args = Returns v → callOrNew Ctor args = Returns v) ∧
  (∀ X, call Ctor args = Throws (class_without_new X) →
        callOrNew Ctor args = construct Ctor args) ∧
  (∀ e, call Ctor args = Throws e → new_mismatch e = false →
        callOrNew Ctor args = Throws e) ∧
  (∀ lib X (make : A → Item) a,
      callOrNew (RR.export lib X make) a = Returns (make a)).
Proof.
  unfold callOrNew. repeat split.
  - intros v ->. reflexivity.
  - intros X ->. by rewrite new_mismatch_class.
  - intros e -> ->. reflexivity.
  - intros. apply callOrNew_export.
Qed.

Lemma callOrNew_contract_witness :
  callOrNew plain_Terminal "int" = Returns (RR.ItemTerminal "int") ∧
  callOrNew class_Terminal "int" = Returns (RR.ItemTerminal "int") ∧
  callOrNew failing_Choice (0%Z, []) = Throws range_error.
Proof.
  split; [|split].
  - apply (proj1 (callOrNew_contract plain_Terminal "int")). reflexivity.
  - apply (proj1 (proj2 (callOrNew_contract class_Terminal "int")) "Terminal").
    reflexivity.
  - apply (proj1 (proj2 (proj2 (callOrNew_contract failing_Choice (0%Z, []))))).
    + reflexivity.
    + reflexivity.
Defined.

(** ** The rule-name filter *)

Lemma List_filter_sublist {A} (P : A → bool) (l : list A) :
  List.filter P l `sublist_of` l.
Proof.
  induction l as [|x l IH]; simpl; [constructor|].
  destruct (P x); by constructor.
Qed.

Lemma elem_of_List_filter {A} (P : A → bool) (l : list A) x :
  x ∈ List.filter P l ↔ x ∈ l ∧ P x = true.
Proof. rewrite !list_elem_of_In. apply filter_In. Qed.

Lemma List_filter_all {A} (P : A → bool) (l : list A) :
  (∀ x, P x = true) → List.filter P l = l.
Proof.
  intros H. induction l as [|x l IH]; simpl; [done|]. by rewrite H, IH.
Qed.

Lemma filterNames_filter query names :
  filterNames query names =
  List.filter (λ n, includes (toLowerCase n) (toLowerCase (trim query))) names.
Proof.
  unfold filterNames. case_decide as Hq; [|done].
  rewrite Hq. symmetry. apply List_filter_all. intros n. apply includes_empty.
Qed.

(** C8, as the code has it. [filterNames] keeps exactly the names whose
    lower-cased form contains the trimmed, lower-cased query as a substring,
    in the order of the list (an empty or all-blank query keeps every
    name); for the query "declarator" these are the names that contain
    "declarator" whatever the case of their letters. *)
Theorem filterNames_keeps_matching (query : string) (names : list string) :
  filterNames query names =
    List.filter (λ n, includes (toLowerCase n) (toLowerCase (trim query)))
      names ∧
  (∀ n, n ∈ filterNames query names ↔
        n ∈ names ∧
        ∃ pre post, toLowerCase n = pre ++ toLowerCase (trim query) ++ post) ∧
  filterNames query names `sublist_of` names ∧
  filterNames "declarator" names =
    List.filter (λ n, includes (toLowerCase n) "declarator") names.
Proof.
  split; [apply filterNames_filter|]. split; [|split].
  - intros n. rewrite filterNames_filter, elem_of_List_filter.
    by rewrite includes_spec.
  - rewrite filterNames_filter. apply List_filter_sublist.
  - reflexivity.
Qed.

(** C8, counterexample. With a blank before the word the query still
    selects "declarator" (the code trims it), where the lower-cased query
    itself is contained in no name. *)
Lemma filterNames_trims_query :
  filterNames " declarator" ["declarator"; "pointer"] ≠
  filterNames_lowercased_query " declarator" ["declarator"; "pointer"].
Proof. vm_compute. discriminate. Qed.

Example filterNames_declarator :
  filterNames "Declarator"
    ["declarator"; "pointer"; "init-declarator"; "DIRECT-DECLARATOR"; "label"] =
  ["declarator"; "init-declarator"; "DIRECT-DECLARATOR"].
Proof. reflexivity. Qed.

Example filterNames_blank :
  filterNames "   " ["declarator"; "pointer"] = ["declarator"; "pointer"].
Proof. reflexivity. Qed.

(** ** Tracks of a diagram *)

Section Lang_facts.

Local Open Scope list_scope.

Implicit Types (r s : Re) (a b : Sym) (u v w : list Sym).

Lemma Lang_Void_iff w : Lang Void w ↔ False.
Proof. split; [inversion 1 | done]. Qed.

Lemma Lang_Eps_iff w : Lang Eps w ↔ w = [].
Proof. split; [by inversion 1 | intros ->; constructor]. Qed.

Lemma Lang_Atom_iff a w : Lang (Atom a) w ↔ w = [a].
Proof. split; [by inversion 1 | intros ->; constructor]. Qed.

Lemma Lang_Cat_iff r s w :
  Lang (Cat r s) w ↔ ∃ u v, w = u ++ v ∧ Lang r u ∧ Lang s v.
Proof.
  split.
  - inversion 1; subst. eauto.
  - intros (u & v & -> & Hu & Hv). by constructor.
Qed.

Lemma Lang_Alt_iff r s w : Lang (Alt r s) w ↔ Lang r w ∨ Lang s w.
Proof.
  split.
  - inversion 1; subst; eauto.
  - intros [H | H]; [by apply Lang_Alt_l | by apply Lang_Alt_r].
Qed.

(** A word of a repetition is a concatenation of words of its body. *)
Lemma Lang_Star_iff r w :
  Lang (Star r) w ↔ ∃ ws, w = concat ws ∧ Forall (Lang r) ws.
Proof.
  split.
  - intros H. remember (Star r) as t eqn:Ht.
    induction H as [| | | | | r' | r' u v Hu _ Hv IH]; try discriminate.
    + by exists [].
    + injection Ht as ->. destruct (IH eq_refl) as (ws & -> & Hws).
      exists (u :: ws). split; [done | by constructor].
  - intros (ws & -> & Hws). induction Hws as [|u ws Hu _ IH]; simpl.
    + constructor.
    + by constructor.
Qed.

(** A non-empty word of a repetition starts with a non-empty word of the
    body. *)
Lemma Lang_Star_cons r a w :
  Lang (Star r) (a :: w) →
  ∃ u v, w = u ++ v ∧ Lang r (a :: u) ∧ Lang (Star r) v.
Proof.
  intros H. remember (Star r) as t eqn:Ht. remember (a :: w) as x eqn:Hx.
  revert w Hx.
  induction H as [| | | | | r' | r' u v Hu _ Hv IH]; intros w Hx;
    try discriminate.
  injection Ht as ->. destruct u as [|b u]; simpl in Hx.
  - by apply IH.
  - injection Hx as -> <-. by exists u, v.
Qed.

Lemma nullable_spec r : nullable r = true ↔ Lang r [].
Proof.
  induction r as [| |a|r IHr s IHs|r IHr s IHs|r IHr]; simpl.
  - by rewrite Lang_Void_iff.
  - by rewrite Lang_Eps_iff.
  - rewrite Lang_Atom_iff. done.
  - rewrite andb_true_iff, IHr, IHs, Lang_Cat_iff. split.
    + intros [Hr Hs]. by exists [], [].
    + intros (u & v & Huv & Hu & Hv). symmetry in Huv.
      apply app_eq_nil in Huv as [-> ->]. done.
  - by rewrite orb_true_iff, IHr, IHs, Lang_Alt_iff.
  - split; [intros _; constructor | done].
Qed.

Lemma after_spec a r w : Lang (after a r) w ↔ Lang r (a :: w).
Proof.
  revert w.
  induction r as [| |b|r IHr s IHs|r IHr s IHs|r IHr]; intros w; simpl.
  - by rewrite !Lang_Void_iff.
  - rewrite Lang_Void_iff, Lang_Eps_iff. done.
  - case_decide as Hab.
    + subst b. rewrite Lang_Eps_iff, Lang_Atom_iff. split; congruence.
    + rewrite Lang_Void_iff, Lang_Atom_iff. split; [done | congruence].
  - assert (Hcat : Lang (Cat (after a r) s) w ↔
                   ∃ u v, w = u ++ v ∧ Lang r (a :: u) ∧ Lang s v).
    { rewrite Lang_Cat_iff. by setoid_rewrite IHr. }
    assert (Hsplit : Lang (Cat r s) (a :: w) ↔
                     (∃ u v, w = u ++ v ∧ Lang r (a :: u) ∧ Lang s v) ∨
                     (Lang r [] ∧ Lang s (a :: w))).
    { rewrite Lang_Cat_iff. split.
      - intros (u & v & Huv & Hu & Hv). destruct u as [|c u]; simpl in Huv.
        + subst v. by right.
        + injection Huv as <- ->. left. by exists u, v.
      - intros [(u & v & -> & Hu & Hv) | [Hr Hs]].
        + by exists (a :: u), v.
        + by exists [], (a :: w). }
    destruct (nullable r) eqn:Hn.
    + rewrite Lang_Alt_iff, Hcat, IHs, Hsplit.
      apply nullable_spec in Hn. tauto.
    + rewrite Hcat, Hsplit. split; [by left|].
      intros [H | [Hr _]]; [done|].
      apply nullable_spec in Hr. congruence.
  - by rewrite !Lang_Alt_iff, IHr, IHs.
  - rewrite Lang_Cat_iff. split.
    + intros (u & v & -> & Hu & Hv). apply IHr in Hu.
      by apply (Lang_Star_app r (a :: u) v).
    + intros H. apply Lang_Star_cons in H as (u & v & -> & Hu & Hv).
      exists u, v. by rewrite IHr.
Qed.

(** The matcher decides membership in the set of tracks. *)
Lemma matches_spec r w : matches r w = true ↔ Lang r w.
Proof.
  unfold matches. revert r.
  induction w as [|a w IH]; intros r; simpl.
  - apply nullable_spec.
  - by rewrite IH, after_spec.
Qed.

End Lang_facts.

(** ** The precedence chain *)

Section Chain_facts.

Local Open Scope list_scope.

Variable lib : RR.Build.

Lemma Diagram_returns a : Diagram lib a = Returns (RR.ItemDiagram a).
Proof. apply callOrNew_export. Qed.
Lemma Sequence_returns a : Sequence lib a = Returns (RR.ItemSequence a).
Proof. apply callOrNew_export. Qed.
Lemma Choice_returns n a : Choice lib n a = Returns (RR.ItemChoice n a).
Proof.
  exact (callOrNew_export lib "Choice"
           (λ a : Z * list Item, RR.ItemChoice a.1 a.2) (n, a)).
Qed.
Lemma Optional_returns a : Optional lib a = Returns (RR.ItemOptional a).
Proof. apply callOrNew_export. Qed.
Lemma OneOrMore_returns a rep :
  OneOrMore lib a rep = Returns (RR.ItemOneOrMore a rep).
Proof.
  exact (callOrNew_export lib "OneOrMore"
           (λ a : Item * option Item, RR.ItemOneOrMore a.1 a.2) (a, rep)).
Qed.
Lemma ZeroOrMore_returns a : ZeroOrMore lib a = Returns (RR.ItemZeroOrMore a).
Proof. apply callOrNew_export. Qed.
Lemma T_returns s : T lib s = Returns (RR.ItemTerminal s).
Proof. apply callOrNew_export. Qed.
Lemma NT_returns s : NT lib s = Returns (RR.ItemNonTerminal s).
Proof. apply callOrNew_export. Qed.
Lemma Comment_returns s : Comment lib s = Returns (RR.ItemComment s).
Proof. apply callOrNew_export. Qed.

Lemma mapM_cons {A} (e : Outcome A) (es : list (Outcome A)) :
  mapM (λ e, e) (e :: es) = (y ← e; k ← mapM (λ e, e) es; Returns (y :: k)).
Proof. reflexivity. Qed.

Lemma mapM_terminals (ops : list string) :
  mapM (λ e, e) (T lib <$> ops) = Returns (map RR.ItemTerminal ops).
Proof.
  induction ops as [|o ops IH]; [done|].
  by rewrite fmap_cons, mapM_cons, T_returns, IH.
Qed.

Lemma chain_returns (base : string) (ops : list string) :
  chain lib base ops = Returns (chain_item base ops).
Proof.
  unfold chain, chain_item, call_spread, call_1.
  rewrite mapM_terminals, !mapM_cons, !NT_returns. simpl.
  rewrite Choice_returns. simpl. rewrite Sequence_returns. simpl.
  rewrite ZeroOrMore_returns. simpl. by rewrite Sequence_returns.
Qed.

Lemma tracks_chain_item (X : string) (ops : list string) :
  tracks (chain_item X ops) =
  Cat (Atom (Ref X))
    (Cat (Star (Cat (operators ops) (Cat (Atom (Ref X)) Eps))) Eps).
Proof.
  unfold chain_item, operators. simpl. by rewrite map_map.
Qed.

Lemma Lang_operators (ops : list string) (w : list Sym) :
  Lang (operators ops) w ↔ ∃ o, o ∈ ops ∧ w = [Tok o].
Proof.
  unfold operators. induction ops as [|p ops IH]; simpl.
  - rewrite Lang_Void_iff. split; [done | intros (o & Ho & _)].
    by apply not_elem_of_nil in Ho.
  - rewrite Lang_Alt_iff, Lang_Atom_iff, IH. split.
    + intros [-> | (o & Ho & ->)].
      * exists p. split; [constructor | done].
      * exists o. split; [by constructor | done].
    + intros (o & Ho & ->). apply elem_of_cons in Ho as [-> | Ho].
      * by left.
      * right. by exists o.
Qed.

Lemma Lang_pair (X : string) (ops : list string) (w : list Sym) :
  Lang (Cat (operators ops) (Cat (Atom (Ref X)) Eps)) w ↔
  ∃ o, o ∈ ops ∧ w = [Tok o; Ref X].
Proof.
  rewrite Lang_Cat_iff. split.
  - intros (u & v & -> & Hu & Hv).
    apply Lang_operators in Hu as (o & Ho & ->).
    apply Lang_Cat_iff in Hv as (v1 & v2 & -> & Hv1 & Hv2).
    apply Lang_Atom_iff in Hv1 as ->. apply Lang_Eps_iff in Hv2 as ->.
    by exists o.
  - intros (o & Ho & ->). exists [Tok o], [Ref X]. split; [done|]. split.
    + apply Lang_operators. by exists o.
    + apply (Lang_Cat _ _ [Ref X] []); constructor.
Qed.

Lemma pairs_of_words (X : string) (ops : list string) (ws : list (list Sym)) :
  Forall (Lang (Cat (operators ops) (Cat (Atom (Ref X)) Eps))) ws ↔
  ∃ os, Forall (λ o, o ∈ ops) os ∧ ws = map (λ o, [Tok o; Ref X]) os.
Proof.
  split.
  - induction 1 as [|u ws Hu _ (os & Hos & ->)].
    + by exists [].
    + apply Lang_pair in Hu as (o & Ho & ->).
      exists (o :: os). split; [by constructor | done].
  - intros (os & Hos & ->). induction Hos as [|o os Ho _ IH]; simpl.
    + constructor.
    + constructor; [|done]. apply Lang_pair. by exists o.
Qed.

Lemma Lang_chain (X : string) (ops : list string) (w : list Sym) :
  Lang (tracks (chain_item X ops)) w ↔
  ∃ os, Forall (λ o, o ∈ ops) os ∧ w = operand_then_pairs X os.
Proof.
  rewrite tracks_chain_item, Lang_Cat_iff. unfold operand_then_pairs. split.
  - intros (u & v & -> & Hu & Hv). apply Lang_Atom_iff in Hu as ->.
    apply Lang_Cat_iff in Hv as (v1 & v2 & -> & Hv1 & Hv2).
    apply Lang_Eps_iff in Hv2 as ->.
    apply Lang_Star_iff in Hv1 as (ws & -> & Hws).
    apply pairs_of_words in Hws as (os & Hos & ->).
    exists os. by rewrite app_nil_r.
  - intros (os & Hos & ->).
    exists [Ref X], (concat (map (λ o, [Tok o; Ref X]) os)).
    split; [done|]. split; [constructor|].
    rewrite <- (app_nil_r (concat _)). constructor; [|constructor].
    apply Lang_Star_iff. eexists. split; [done|].
    apply pairs_of_words. by exists os.
Qed.

Lemma LeftRec_iff (X : string) (ops : list string) (w : list Sym) :
  LeftRec X ops w ↔
  ∃ os, Forall (λ o, o ∈ ops) os ∧ w = operand_then_pairs X os.
Proof.
  unfold operand_then_pairs. split.
  - induction 1 as [|w o _ (os & Hos & ->) Ho].
    + by exists [].
    + exists (os ++ [o]). split.
      * apply Forall_app. split; [done | by constructor].
      * by rewrite map_app, concat_app.
  - intros (os & Hos & ->). induction os as [|o os IH] using rev_ind.
    + constructor.
    + apply Forall_app in Hos as [Hos Ho].
      rewrite Forall_singleton in Ho.
      rewrite map_app, concat_app. simpl.
      change (Ref X :: ?l ++ ?r) with ((Ref X :: l) ++ r).
      constructor; [by apply IH | done].
Qed.

End Chain_facts.

(** C5. For an operand rule [X] and a list [ops] of at least one operator,
    [chain] builds the operand followed by a repetition of (operator,
    operand) pairs. Its
    tracks are exactly the words X (op X)* with every op among [ops]: so
    X, X op1 X and X op1 X op2 X are accepted, and no word that starts
    with an operator is. These are also exactly the words of the
    left-recursive production E : X | E op X, which the chain stands
    for. *)
Theorem chain_operand_then_pairs (lib : RR.Build) (X : string)
  (ops : list string) (Hops : ops ≠ []) :
  chain lib X ops = Returns (chain_item X ops) ∧
  (∀ w, accepts (chain_item X ops) w = true ↔
        ∃ os, Forall (λ o, o ∈ ops) os ∧ w = operand_then_pairs X os) ∧
  (∀ op1 op2, op1 ∈ ops → op2 ∈ ops →
     accepts (chain_item X ops) [Ref X] = true ∧
     accepts (chain_item X ops) [Ref X; Tok op1; Ref X] = true ∧
     accepts (chain_item X ops)
       [Ref X; Tok op1; Ref X; Tok op2; Ref X] = true) ∧
  (∀ op w, accepts (chain_item X ops) (Tok op :: w) = false) ∧
  (∀ w, accepts (chain_item X ops) w = true ↔ LeftRec X ops w).
Proof.
  assert (Hacc : ∀ w, accepts (chain_item X ops) w = true ↔
                 ∃ os, Forall (λ o, o ∈ ops) os ∧ w = operand_then_pairs X os).
  { intros w. unfold accepts. by rewrite matches_spec, Lang_chain. }
  split; [apply chain_returns|]. split; [exact Hacc|]. split; [|split].
  - intros op1 op2 H1 H2. repeat split; apply Hacc.
    + by exists [].
    + exists [op1]. split; [by repeat constructor | done].
    + exists [op1; op2]. split; [by repeat constructor | done].
  - intros op w. apply not_true_iff_false. rewrite Hacc.
    intros (os & _ & H). discriminate.
  - intros w. by rewrite Hacc, LeftRec_iff.
Qed.

Lemma chain_operand_then_pairs_witness :
  chain lib_classes "cast-expression" ["*"; "/"; "%"] =
    Returns (chain_item "cast-expression" ["*"; "/"; "%"]) ∧
  accepts (chain_item "cast-expression" ["*"; "/"; "%"])
    [Tok "*"; Ref "cast-expression"] = false.
Proof.
  destruct (chain_operand_then_pairs lib_classes "cast-expression"
              ["*"; "/"; "%"]) as (H1 & _ & _ & H4 & _).
  - discriminate.
  - split; [exact H1 | apply H4].
Defined.

(** ** The rule registry *)

Section Registry_facts.

Local Open Scope list_scope.

Variable lib : RR.Build.

Lemma foldl_set_lookup {V} (l : list (string * V)) (m : gmap string V) k v :
  NoDup l.*1 →
  foldl (λ m kv, <[kv.1 := kv.2]> m) m l !! k = Some v ↔
  (k, v) ∈ l ∨ ((k ∉ l.*1) ∧ m !! k = Some v).
Proof.
  revert m. induction l as [|[k' v'] l IH]; intros m Hnd; simpl.
  - split; [intros H; right; split; [apply not_elem_of_nil | done]|].
    intros [H | [_ H]]; [by apply not_elem_of_nil in H | done].
  - apply NoDup_cons in Hnd as [Hk' Hnd]. rewrite IH by done.
    rewrite elem_of_cons, not_elem_of_cons. split.
    + intros [H | [Hk H]]; [left; by right|].
      destruct (decide (k' = k)) as [->|Hne].
      * rewrite lookup_insert_eq in H. injection H as ->. left. by left.
      * rewrite lookup_insert_ne in H by done. right. by repeat split.
    + intros [[H | H] | [[Hne Hk] H]].
      * injection H as -> ->. right. split; [done|].
        by rewrite lookup_insert_eq.
      * by left.
      * right. split; [done|]. by rewrite lookup_insert_ne.
Qed.

Lemma rule_names_NoDup : NoDup (rule_sets lib).*1.
Proof. apply (bool_decide_unpack _). by vm_compute. Qed.

(** The registry holds exactly the pairs that were set. *)
Lemma rules_lookup k f : rules lib !! k = Some f ↔ (k, f) ∈ rule_sets lib.
Proof.
  unfold rules. rewrite foldl_set_lookup by apply rule_names_NoDup.
  rewrite lookup_empty. split; [by intros [H | [_ H]] | by left].
Qed.

Lemma rules_is_Some k : is_Some (rules lib !! k) ↔ k ∈ (rule_sets lib).*1.
Proof.
  rewrite list_elem_of_fmap. split.
  - intros [f Hf]. exists (k, f). split; [done | by apply rules_lookup].
  - intros ([k' f] & -> & Hf). exists f. by apply rules_lookup.
Qed.

(** Every factory of the registry returns a description, and none of
    these holds a placeholder comment. *)
Lemma rule_sets_return :
  Forall (λ kv, ∃ d, kv.2 () = Returns d ∧ no_placeholder d = true)
    (rule_sets lib).
Proof.
  assert (H : forallb (λ kv : string * (unit → Outcome Item),
                         match kv.2 () with
                         | Returns d => no_placeholder d
                         | Throws _ => false
                         end) (rule_sets lib) = true).
  { destruct lib as [[] s1 s2 s3]; by vm_compute. }
  apply Forall_forall. intros kv Hkv.
  rewrite forallb_forall in H. apply list_elem_of_In, H in Hkv.
  destruct (kv.2 ()) as [d|e]; [by exists d | done].
Qed.

Lemma factory_returns k f :
  rules lib !! k = Some f → ∃ d, f () = Returns d ∧ no_placeholder d = true.
Proof.
  intros Hf. apply rules_lookup in Hf.
  by apply (proj1 (Forall_forall _ _) rule_sets_return (k, f)).
Qed.

End Registry_facts.

(** C7. Every name of every name list that [renderAllSections] passes on
    is a key of [rules]: looking it up gives a factory. *)
Theorem sections_not_orphaned (lib : RR.Build) :
  Forall (λ s : string * list string,
            Forall (λ n, is_Some (rules lib !! n)) s.2)
    section_lists.
Proof.
  assert (H : Forall (λ s : string * list string,
                        Forall (λ n, n ∈ (rule_sets lib).*1) s.2)
                section_lists).
  { apply (bool_decide_unpack _). by vm_compute. }
  eapply Forall_impl; [exact H|]. intros s Hs. simpl in Hs.
  eapply Forall_impl; [exact Hs|]. intros n Hn. by apply rules_is_Some.
Qed.

Example section_sizes :
  map (λ s : string * list string, (s.1, length s.2)) section_lists =
  [("lexical", 5); ("expressions", 23); ("declarations", 37);
   ("statements", 11); ("external", 4); ("preprocessor", 14)].
Proof. reflexivity. Qed.

(** ** Mounting a rule *)

Lemma try_fill_svgwrap_element (diagram : DiagramValue) (e : Element) :
  try_fill_svgwrap diagram e =
  set_childNodes (childNodes (try_fill_svgwrap diagram e)) e.
Proof.
  destruct e as [t k i ch].
  unfold try_fill_svgwrap, fill_svgwrap.
  destruct diagram as [| |[sv st ad]]; simpl; [done..|].
  destruct sv as [[[s|n| |]|e]|]; simpl; try done.
  destruct st as [[s|e]|]; simpl; try done.
  destruct ad as [run|]; simpl; [|done].
  by destruct (run ch).
Qed.

(** [mountRule] on an element never throws: it appends one block. *)
Lemma mountRule_block (c : Element) (name : string) (diagram : DiagramValue) :
  mountRule (Some c) name diagram =
  Returns (appendChild (rule_block name (shown diagram)) c).
Proof.
  unfold mountRule, shown, rule_block. simpl. do 3 f_equal.
  set (svgwrap := set_className "svgwrap" (createElement "div")).
  rewrite (try_fill_svgwrap_element diagram svgwrap). reflexivity.
Qed.

Lemma mountRule_null (name : string) (diagram : DiagramValue) :
  is_Returns (mountRule None name diagram) = false.
Proof. reflexivity. Qed.

Lemma shown_no_properties :
  shown Undefined = error_note (no_properties "undefined") ∧
  shown Null = error_note (no_properties "null").
Proof. by split. Qed.

Lemma shown_toSVG run st ad :
  shown (Object (mkMethods (Some run) st ad)) =
  match run with
  | Returns (SvgString s) => parsed s
  | Returns (SvgNode n) => [n]
  | Returns SvgNodeLike => error_note not_a_Node
  | Returns SvgOther => [TextNode "toSVG() returned an unexpected value."]
  | Throws e => error_note e
  end.
Proof. by destruct run as [[s|n| |]|e]. Qed.

Lemma shown_toString run ad :
  shown (Object (mkMethods None (Some run) ad)) =
  match run with
  | Returns s => parsed s
  | Throws e => error_note e
  end.
Proof. by destruct run as [s|e]. Qed.

Lemma shown_addTo run :
  shown (Object (mkMethods None None (Some run))) =
  match run [] with
  | Returns k => k
  | Throws e => error_note e
  end.
Proof.
  unfold shown, try_fill_svgwrap, fill_svgwrap. simpl. by destruct (run []).
Qed.

Lemma shown_no_method :
  shown (Object (mkMethods None None None)) =
  [TextNode
     "Diagram object does not support toSVG/toString/addTo in this build."].
Proof. reflexivity. Qed.

(** ** Rendering a list of rules *)

Section Render_facts.

Local Open Scope list_scope.

Variable lib : RR.Build.

Implicit Types (reg : gmap string (unit → Outcome Item)) (c : Element).

Lemma placeholder_built (name : string) :
  Diagram lib $* [Comment lib ("No factory defined for " +:+ name)] =
  Returns (placeholder name).
Proof.
  unfold call_spread. rewrite mapM_cons, Comment_returns. simpl.
  by rewrite Diagram_returns.
Qed.

(** One turn of the loop. *)
Lemma renderRuleList_cons reg c (name : string) (rest : list string) :
  renderRuleList lib (Some c) reg (name :: rest) =
  d ← described reg name;
  renderRuleList lib
    (Some (appendChild (rule_block name (shown (RR.object lib d))) c)) reg rest.
Proof.
  unfold described. cbn [renderRuleList]. destruct (reg !! name) as [f|].
  - destruct (f ()) as [d|e]; [|done].
    cbn [mbind outcome_bind]. by rewrite mountRule_block.
  - rewrite placeholder_built.
    cbn [mbind outcome_bind]. by rewrite mountRule_block.
Qed.

Lemma set_childNodes_id c : set_childNodes (childNodes c) c = c.
Proof. by destruct c. Qed.

Lemma set_childNodes_appendChild c (n : Node) (k : list Node) :
  set_childNodes (childNodes (appendChild n c) ++ k) (appendChild n c) =
  set_childNodes (childNodes c ++ n :: k) c.
Proof.
  destruct c. simpl. unfold set_childNodes. simpl. by rewrite <- app_assoc.
Qed.

(** When the factories of the names return, the loop appends the blocks of
    the names in their order. *)
Lemma renderRuleList_blocks reg c (names : list string) :
  Forall (λ n, ∃ d, described reg n = Returns d) names →
  renderRuleList lib (Some c) reg names =
  Returns (Some (set_childNodes
                   (childNodes c ++ map (mounted_block lib reg) names) c)).
Proof.
  intros H. revert c. induction H as [|n names [d Hd] _ IH]; intros c.
  - simpl. by rewrite app_nil_r, set_childNodes_id.
  - rewrite renderRuleList_cons, Hd. simpl. rewrite IH.
    rewrite set_childNodes_appendChild. unfold mounted_block at 2.
    by rewrite Hd.
Qed.

(** A factory that throws ends the loop at its name. *)
Lemma renderRuleList_factory_throws reg c name rest f e :
  reg !! name = Some f → f () = Throws e →
  renderRuleList lib (Some c) reg (name :: rest) = Throws e.
Proof.
  intros Hf He. rewrite renderRuleList_cons. unfold described.
  by rewrite Hf, He.
Qed.

Lemma described_rules (name : string) :
  ∃ d, described (rules lib) name = Returns d.
Proof.
  unfold described. destruct (rules lib !! name) as [f|] eqn:Hf.
  - destruct (factory_returns lib name f Hf) as (d & Hd & _). by exists d.
  - by eexists.
Qed.

Lemma block_id_mounted reg (names : list string) :
  map block_id (map (mounted_block lib reg) names) =
  map (λ n, Some ("rule-" +:+ n)) names.
Proof. by rewrite map_map. Qed.

Lemma block_heading_mounted reg (names : list string) :
  map block_heading (map (mounted_block lib reg) names) =
  map (λ n, Some (if decide (n = "") then [] else [TextNode n])) names.
Proof. by rewrite map_map. Qed.

End Render_facts.

(** ** The claims on mounting and rendering *)

(** C1, as the code has it. The diagram values are those of
    [DiagramValue]: a node that [toSVG] returns is a node in no tree yet,
    and what a method throws has a message or a string form. For these, on
    an element container, [mountRule] returns and appends exactly one block
    for the rule. What the block shows is decided by the first export
    method that the diagram object carries, in the order [toSVG],
    [toString], [addTo], and by that method alone: when it throws, an
    inline "Render error" note takes the place of the diagram and no later
    method is tried. What [toSVG] returns decides further: a string is set
    as markup, a node is appended, an object with a [nodeType] that is no
    node makes [appendChild] throw and gives the "Render error" note, any
    other value gives the message on an unexpected value. A [null] or
    [undefined] diagram gives the note as well, an object without any of
    the methods a fixed message. After the block is mounted the loop of
    [renderRuleList] goes on with the remaining names. Outside these
    values [mountRule] can throw: [container_in_itself_throws] has a
    [toSVG] that returns the container. *)
Theorem mountRule_first_present_export (c : Element) (name : string)
  (diagram : DiagramValue) :
  mountRule (Some c) name diagram =
    Returns (appendChild (rule_block name (shown diagram)) c) ∧
  shown Undefined = error_note (no_properties "undefined") ∧
  shown Null = error_note (no_properties "null") ∧
  (∀ run st ad,
     shown (Object (mkMethods (Some run) st ad)) =
     match run with
     | Returns (SvgString s) => parsed s
     | Returns (SvgNode n) => [n]
     | Returns SvgNodeLike => error_note not_a_Node
     | Returns SvgOther => [TextNode "toSVG() returned an unexpected value."]
     | Throws e => error_note e
     end) ∧
  (∀ run ad,
     shown (Object (mkMethods None (Some run) ad)) =
     match run with
     | Returns s => parsed s
     | Throws e => error_note e
     end) ∧
  (∀ run,
     shown (Object (mkMethods None None (Some run))) =
     match run [] with
     | Returns k => k
     | Throws e => error_note e
     end) ∧
  shown (Object (mkMethods None None None)) =
    [TextNode
       "Diagram object does not support toSVG/toString/addTo in this build."] ∧
  (∀ lib reg rest f d,
     reg !! name = Some f → f () = Returns d →
     renderRuleList lib (Some c) reg (name :: rest) =
     renderRuleList lib
       (Some (appendChild (rule_block name (shown (RR.object lib d))) c))
       reg rest).
Proof.
  split; [apply mountRule_block|].
  split; [apply shown_no_properties|]. split; [apply shown_no_properties|].
  split; [apply shown_toSVG|]. split; [apply shown_toString|].
  split; [apply shown_addTo|]. split; [apply shown_no_method|].
  intros lib reg rest f d Hf Hd. rewrite renderRuleList_cons.
  unfold described. by rewrite Hf, Hd.
Qed.

Lemma mountRule_first_present_export_witness :
  mountRule (Some (createElement "section")) "token" svg_throws_string_works =
    Returns
      (mkElement "section" "" "" [
         rule_block "token" [TextNode "Render error: getBBox is not available"]
       ]) ∧
  renderRuleList lib_classes (Some (createElement "section")) token_only
    ["token"; "constant"] =
  renderRuleList lib_classes
    (Some (mkElement "section" "" "" [
             rule_block "token" [ParsedMarkup "<svg/>"]
           ]))
    token_only ["constant"].
Proof.
  split.
  - apply (proj1 (mountRule_first_present_export (createElement "section")
                    "token" svg_throws_string_works)).
  - apply (proj2 (proj2 (proj2 (proj2 (proj2 (proj2 (proj2
             (mountRule_first_present_export (createElement "section")
                "token" Null))))))) lib_classes token_only ["constant"]
             (λ _, Returns (RR.ItemTerminal "int")) (RR.ItemTerminal "int")).
    + reflexivity.
    + reflexivity.
Defined.

(** C1, counterexample. A diagram object whose [toSVG] throws and whose
    [toString] returns markup: the block shows the error note, where
    "first success wins" would show the markup of [toString]. *)
Lemma mountRule_no_fallback_after_throw :
  mountRule (Some (createElement "section")) "token" svg_throws_string_works ≠
  mountRule_first_success (Some (createElement "section")) "token"
    svg_throws_string_works.
Proof. vm_compute. discriminate. Qed.

Example shown_after_throw :
  shown svg_throws_string_works =
    [TextNode "Render error: getBBox is not available"] ∧
  shown_first_success svg_throws_string_works = [ParsedMarkup "<svg/>"].
Proof. split; reflexivity. Qed.



(** On values, what rendering a rule name appends does not depend on the
    container: the same blocks, or the same throw, whatever element they
    go to. That two renderings on one page do not disturb one another is
    stated further down, on the page as a store. *)
Lemma render_same_name_same_output (lib : RR.Build)
  (reg : gmap string (unit → Outcome Item)) (name : string) :
  ∃ out : Outcome (list Node),
    (∀ c : Element,
       renderRuleList lib (Some c) reg [name] = with_blocks c <$> out) ∧
    (∀ tag1 class1 id1 tag2 class2 id2,
       children_after
         (renderRuleList lib (Some (mkElement tag1 class1 id1 [])) reg [name]) =
       children_after
         (renderRuleList lib (Some (mkElement tag2 class2 id2 [])) reg [name])).
Proof.
  set (out := d ← described reg name;
              Returns [rule_block name (shown (RR.object lib d))]).
  assert (H : ∀ c : Element,
    renderRuleList lib (Some c) reg [name] = with_blocks c <$> out).
  { intros c. rewrite renderRuleList_cons. unfold out.
    destruct (described reg name) as [d|e]; [|done]. by destruct c. }
  exists out. split; [exact H|]. intros. rewrite !H.
  by destruct out.
Qed.

Example render_twice :
  children_after
    (renderRuleList lib_classes (Some (createElement "section"))
       (rules lib_classes) ["constant-expression"]) =
  children_after
    (renderRuleList lib_classes (Some (mkElement "div" "left" "a" []))
       (rules lib_classes) ["constant-expression"]).
Proof. by vm_compute. Qed.

(** C10. For every element container and every list of names,
    [renderRuleList] on the registry of the module appends one block per
    name, in the order of the names. The block of a name has the id
    "rule-<name>" and a heading with the name (no text node for the empty
    name); it is there as well when the name has no factory (the
    placeholder diagram) and when the export of the diagram throws (the
    error note). *)
Theorem renderRuleList_one_block_per_name (lib : RR.Build) (c : Element)
  (names : list string) :
  let blocks := map (mounted_block lib (rules lib)) names in
  renderRuleList lib (Some c) (rules lib) names =
    Returns (Some (set_childNodes (childNodes c ++ blocks) c)) ∧
  length blocks = length names ∧
  map block_id blocks = map (λ n, Some ("rule-" ++ n)) names ∧
  map block_heading blocks =
    map (λ n, Some (if decide (n = "") then [] else [TextNode n])) names ∧
  Forall (λ b, ∃ n content, n ∈ names ∧ b = rule_block n content) blocks.
Proof.
  intros blocks. split; [|split; [|split; [|split]]].
  - apply renderRuleList_blocks. apply Forall_forall. intros n _.
    apply described_rules.
  - apply length_map.
  - apply block_id_mounted.
  - apply block_heading_mounted.
  - apply Forall_forall. intros b Hb.
    apply list_elem_of_fmap in Hb as (n & -> & Hn).
    by eexists n, _.
Qed.

Example renderRuleList_three_names :
  renderRuleList lib_classes (Some (createElement "section")) (rules lib_classes)
    ["token"; "no-such-rule"; "constant"] =
  Returns
    (Some (mkElement "section" "" "" [
             rule_block "token" [ParsedMarkup "<svg/>"];
             rule_block "no-such-rule" [ParsedMarkup "<svg/>"];
             rule_block "constant" [ParsedMarkup "<svg/>"]
           ])).
Proof. by vm_compute. Qed.

(** ** The claims on the descriptions of the rules *)

Section Description_facts.

Local Open Scope list_scope.

Lemma accepts_Diagram_one (d : Item) (w : list Sym) :
  accepts (RR.ItemDiagram [d]) w = accepts d w.
Proof.
  apply eq_true_iff_eq. unfold accepts. rewrite !matches_spec. simpl.
  rewrite Lang_Cat_iff. split.
  - intros (u & v & -> & Hu & Hv). apply Lang_Eps_iff in Hv as ->.
    by rewrite app_nil_r.
  - intros H. exists w, []. rewrite app_nil_r.
    split; [done|]. split; [done | constructor].
Qed.

Lemma accepts_chain_item (X : string) (ops : list string) (w : list Sym) :
  accepts (chain_item X ops) w = true ↔
  ∃ os, Forall (λ o, o ∈ ops) os ∧ w = operand_then_pairs X os.
Proof. unfold accepts. by rewrite matches_spec, Lang_chain. Qed.

Lemma accepts_one_pair (X : string) (ops : list string) (op : string) :
  accepts (chain_item X ops) [Ref X; Tok op; Ref X] = true ↔ op ∈ ops.
Proof.
  rewrite accepts_chain_item. unfold operand_then_pairs. split.
  - intros (os & Hos & H). destruct os as [|o [|o' os]]; simpl in H; try done.
    injection H as ->. by rewrite Forall_singleton in Hos.
  - intros Hop. exists [op]. split; [by rewrite Forall_singleton | done].
Qed.

Lemma no_placeholder_spec (d : Item) (r : string) :
  no_placeholder d = true → ¬ has_placeholder_for r d.
Proof.
  unfold no_placeholder, has_placeholder_for. intros H Hin.
  rewrite forallb_forall in H. apply list_elem_of_In, H in Hin.
  apply negb_true_iff, not_true_iff_false in Hin. apply Hin.
  apply startsWith_spec. by exists r.
Qed.

End Description_facts.

(** C6. The factory registered for "multiplicative-expression" returns the
    diagram of the chain with operand "cast-expression" and operators "*",
    "/", "%": its only non-terminal is "cast-expression", its terminals are the
    three operators, and between two operands it accepts these three and
    nothing else. *)
Theorem multiplicative_expression_rule (lib : RR.Build) :
  ∃ f, rules lib !! "multiplicative-expression" = Some f ∧
       f () = Returns multiplicative_item ∧
       nonterminals multiplicative_item =
         ["cast-expression"; "cast-expression"] ∧
       terminals multiplicative_item = ["*"; "/"; "%"] ∧
       (∀ op, accepts multiplicative_item
                [Ref "cast-expression"; Tok op; Ref "cast-expression"] = true ↔
              op ∈ ["*"; "/"; "%"]) ∧
       (∀ w, accepts multiplicative_item w = true ↔
             ∃ os, Forall (λ o, o ∈ ["*"; "/"; "%"]) os ∧
                   w = operand_then_pairs "cast-expression" os).
Proof.
  exists (λ _, Diagram lib $* [chain lib "cast-expression" ["*"; "/"; "%"]]).
  split; [|split; [|split; [|split; [|split]]]].
  - apply rules_lookup. unfold rule_sets.
    do 15 apply list_elem_of_further. apply list_elem_of_here.
  - unfold call_spread. rewrite mapM_cons, chain_returns. simpl.
    by rewrite Diagram_returns.
  - reflexivity.
  - reflexivity.
  - intros op. unfold multiplicative_item. rewrite accepts_Diagram_one.
    apply accepts_one_pair.
  - intros w. unfold multiplicative_item. rewrite accepts_Diagram_one.
    apply accepts_chain_item.
Qed.

Example multiplicative_accepts :
  accepts multiplicative_item
    [Ref "cast-expression"; Tok "*"; Ref "cast-expression"; Tok "%";
     Ref "cast-expression"] = true ∧
  accepts multiplicative_item
    [Ref "cast-expression"; Tok "+"; Ref "cast-expression"] = false ∧
  accepts multiplicative_item [Tok "*"; Ref "cast-expression"] = false.
Proof. by vm_compute. Qed.

(** The referenced names that are no key of the registry. *)
Lemma references_without_rule_list (lib : RR.Build) :
  references_without_rule lib =
  ["keyword"; "header-name"; "pp-number"; "punctuator";
   "non-white-space-character"; "identifier-start"; "identifier-continue";
   "hex-quad"; "integer-constant"; "floating-constant"; "character-constant";
   "predefined-constant"; "string-literal"; "attribute-declaration";
   "typedef-name"; "static_assert-declaration"; "enumeration-constant";
   "secondary-block"; "attribute-specifier-sequence"; "new-line"].
Proof. destruct lib as [[] s1 s2 s3]; by vm_compute. Qed.

(** C4, as the code has it. A reference to a rule is a box with the name
    of the rule and nothing more: the registry is not asked about it. The
    factory of every registered rule returns its description whether or not
    the names it refers to are keys (twenty of them, "keyword" among them,
    are not); no placeholder is put in for a reference; and rendering the
    rule, in any registry that holds its factory, appends the block of this
    very description and goes on with the next name. *)
Theorem references_are_boxes_only (lib : RR.Build) (name : string)
  (f : unit → Outcome Item) (Hf : rules lib !! name = Some f) :
  ∃ d, f () = Returns d ∧
       (∀ r, ¬ has_placeholder_for r d) ∧
       (∀ reg (c : Element) rest,
          reg !! name = Some f →
          renderRuleList lib (Some c) reg (name :: rest) =
          renderRuleList lib
            (Some (appendChild
                     (rule_block name (shown (RR.object lib d))) c))
            reg rest) ∧
       "keyword" ∈ references_without_rule lib ∧
       length (references_without_rule lib) = 20.
Proof.
  destruct (factory_returns lib name f Hf) as (d & Hd & Hno).
  exists d. split; [done|]. split; [|split].
  - intros r. by apply no_placeholder_spec.
  - intros reg c rest Hreg. rewrite renderRuleList_cons. unfold described.
    by rewrite Hreg, Hd.
  - rewrite references_without_rule_list. split; [|done].
    apply list_elem_of_here.
Qed.

Lemma references_are_boxes_only_witness :
  ∃ f d, rules lib_classes !! "token" = Some f ∧ f () = Returns d ∧
         ¬ has_placeholder_for "keyword" d.
Proof.
  destruct (rules lib_classes !! "token") as [f|] eqn:Hf;
    [|by vm_compute in Hf].
  destruct (references_are_boxes_only lib_classes "token" f Hf)
    as (d & Hd & Hno & _).
  exists f, d. split; [done|]. split; [done | apply Hno].
Defined.

(** C4, counterexample. The description of "token" refers to "keyword";
    "keyword" is no key of the registry, and the description that is
    mounted holds no placeholder for it. *)
Lemma token_refers_to_keyword :
  ¬ references_keyed_or_replaced lib_classes.
Proof.
  intros H.
  destruct (rules lib_classes !! "token") as [f|] eqn:Hf;
    [|by vm_compute in Hf].
  destruct (factory_returns lib_classes "token" f Hf) as (d & Hd & Hno).
  assert (Hin : "keyword" ∈ nonterminals d).
  { assert (Hf' := Hf). vm_compute in Hf'. injection Hf' as Hf'.
    rewrite <- Hf' in Hd. injection Hd as <-. apply list_elem_of_here. }
  destruct (H "token" f d "keyword" Hf Hd Hin) as [Hsome | Hplace].
  - apply rules_is_Some in Hsome. revert Hsome.
    apply (bool_decide_unpack _). by vm_compute.
  - by apply (no_placeholder_spec d "keyword").
Qed.

Example keyword_is_no_key :
  rules lib_classes !! "keyword" = None ∧
  rules lib_factories !! "keyword" = None.
Proof. by vm_compute. Qed.

(** ** Further properties of the render loop *)

Section Loop_facts.

Local Open Scope list_scope.

Variable lib : RR.Build.

Implicit Types (reg : gmap string (unit → Outcome Item)) (c : Element).

Lemma renderRuleList_null_cons reg (name : string) (rest : list string) :
  renderRuleList lib None reg (name :: rest) =
  described reg name ≫= λ _, Throws null_container.
Proof.
  unfold described. cbn [renderRuleList]. destruct (reg !! name) as [f|].
  - by destruct (f ()).
  - by rewrite placeholder_built.
Qed.

Lemma renderRuleList_app_any (sectionRoot : option Element) reg
  (names1 names2 : list string) :
  renderRuleList lib sectionRoot reg (names1 ++ names2) =
  renderRuleList lib sectionRoot reg names1 ≫= λ r,
    renderRuleList lib r reg names2.
Proof.
  revert sectionRoot. induction names1 as [|n names1 IH]; intros r; [done|].
  rewrite <- app_comm_cons. destruct r as [c|].
  - rewrite !renderRuleList_cons. destruct (described reg n); [|done].
    apply IH.
  - rewrite !renderRuleList_null_cons. by destruct (described reg n).
Qed.

Lemma renderRuleList_shape reg c (names : list string) r :
  renderRuleList lib (Some c) reg names = Returns r →
  ∃ blocks, r = Some (set_childNodes (childNodes c ++ blocks) c) ∧
            length blocks = length names ∧
            map block_id blocks = map (λ n, Some ("rule-" +:+ n)) names.
Proof.
  revert c. induction names as [|n names IH]; intros c.
  - intros [= <-]. exists []. by rewrite app_nil_r, set_childNodes_id.
  - rewrite renderRuleList_cons. destruct (described reg n) as [d|e]; [|done].
    intros H. apply IH in H as (blocks & -> & Hlen & Hid).
    exists (rule_block n (shown (RR.object lib d)) :: blocks).
    rewrite set_childNodes_appendChild. simpl. by rewrite Hlen, Hid.
Qed.

End Loop_facts.

(** X1. The loop over a list of names that is the concatenation of two
    lists is the loop over the first list followed by the loop over the
    second on the container that the first one returns; a throw in the
    first part is the throw of the whole. This holds for every registry and
    also for a [null] container. *)
Theorem renderRuleList_app (lib : RR.Build) (sectionRoot : option Element)
  (reg : gmap string (unit → Outcome Item)) (names1 names2 : list string) :
  renderRuleList lib sectionRoot reg (names1 ++ names2)%list =
  renderRuleList lib sectionRoot reg names1 ≫= λ r,
    renderRuleList lib r reg names2.
Proof. apply renderRuleList_app_any. Qed.

(** X2. A factory that throws ends the loop: when the factories of the
    names before [name] return and the factory of [name] throws [e], the
    loop over the whole list throws [e], whatever names follow. Rendering
    failures are caught per rule, failures of a factory are not. *)
Theorem renderRuleList_factory_throw_aborts (lib : RR.Build)
  (reg : gmap string (unit → Outcome Item)) (c : Element)
  (before : list string) (name : string) (rest : list string)
  (f : unit → Outcome Item) (e : Thrown)
  (Hbefore : Forall (λ n, ∃ d, described reg n = Returns d) before)
  (Hf : reg !! name = Some f) (He : f () = Throws e) :
  renderRuleList lib (Some c) reg (before ++ name :: rest)%list = Throws e.
Proof.
  rewrite renderRuleList_app_any, (renderRuleList_blocks lib reg c before Hbefore).
  simpl. by apply renderRuleList_factory_throws with f.
Qed.

Lemma renderRuleList_factory_throw_aborts_witness :
  renderRuleList lib_classes (Some (createElement "section")) broken_rule
    ["token"; "no-such-rule"; "broken"; "token"] = Throws range_error.
Proof.
  apply (renderRuleList_factory_throw_aborts lib_classes broken_rule
           (createElement "section") ["token"; "no-such-rule"] "broken"
           ["token"] (λ _, Throws range_error) range_error).
  - repeat constructor; by eexists.
  - reflexivity.
  - reflexivity.
Defined.

(** X3. Without a container ([querySelector] gave [null]) the loop returns
    [null] for the empty list; for a non-empty list the factory of the first
    name (or the placeholder) is still evaluated, and then mounting throws
    the [TypeError] of the [null] container: no name is rendered. *)
Theorem renderRuleList_null_container (lib : RR.Build)
  (reg : gmap string (unit → Outcome Item)) :
  renderRuleList lib None reg [] = Returns None ∧
  (∀ name rest,
     renderRuleList lib None reg (name :: rest) =
     described reg name ≫= λ _, Throws null_container) ∧
  (∀ name rest,
     renderRuleList lib None (rules lib) (name :: rest) =
     Throws null_container).
Proof.
  split; [done|]. split; [apply renderRuleList_null_cons|].
  intros name rest. rewrite renderRuleList_null_cons.
  by destruct (described_rules lib name) as [d ->].
Qed.

(** X4. The loop only appends. Whenever it returns, the container is the
    one it was given, with the same tag, class and id, its former children
    first and in their order, followed by one block per name with the ids
    "rule-<name>" in the order of the names; a name that occurs twice gives
    two blocks with the same id. *)
Theorem renderRuleList_only_appends (lib : RR.Build)
  (reg : gmap string (unit → Outcome Item)) (c : Element)
  (names : list string) (r : option Element)
  (Hr : renderRuleList lib (Some c) reg names = Returns r) :
  ∃ blocks,
    r = Some (mkElement (tagName c) (className c) (id c)
                (childNodes c ++ blocks)%list) ∧
    length blocks = length names ∧
    map block_id blocks = map (λ n, Some ("rule-" ++ n)) names.
Proof. by apply renderRuleList_shape in Hr. Qed.

Lemma renderRuleList_only_appends_witness :
  ∃ blocks,
    renderRuleList lib_classes
      (Some (mkElement "section" "grammar" "lexical" [TextNode "Lexical"]))
      token_only ["token"; "token"] =
    Returns
      (Some (mkElement "section" "grammar" "lexical"
               (TextNode "Lexical" :: blocks))) ∧
    map block_id blocks = [Some "rule-token"; Some "rule-token"].
Proof.
  destruct (renderRuleList_only_appends lib_classes token_only
              (mkElement "section" "grammar" "lexical" [TextNode "Lexical"])
              ["token"; "token"]
              (Some (mkElement "section" "grammar" "lexical"
                       [TextNode "Lexical";
                        rule_block "token" [ParsedMarkup "<svg/>"];
                        rule_block "token" [ParsedMarkup "<svg/>"]])))
    as (blocks & Hr & _ & Hid).
  - reflexivity.
  - exists blocks. split; [|exact Hid]. injection Hr as <-. reflexivity.
Defined.

(** ** The render entrypoint *)

Section Entry_facts.

Local Open Scope list_scope.

Variable lib : RR.Build.

Implicit Types (root : gmap string Element) (secs : list (string * list string)).

Lemma section_step_throws (e : Thrown) secs :
  foldl (section_step lib) (Throws e) secs = Throws e.
Proof. induction secs as [|s secs IH]; [done | apply IH]. Qed.

Lemma render_section_present root (marker : string) (names : list string) c :
  root !! marker = Some c →
  render_section lib root marker names =
  Returns
    (alter
       (λ c, set_childNodes
               (childNodes c ++ map (mounted_block lib (rules lib)) names) c)
       marker root).
Proof.
  intros Hc. unfold render_section. rewrite Hc.
  rewrite renderRuleList_blocks
    by (apply Forall_forall; intros n _; apply described_rules).
  simpl. f_equal. apply map_eq. intros k. rewrite lookup_alter.
  case_decide as Hk.
  - subst k. by rewrite lookup_insert_eq, Hc.
  - by rewrite lookup_insert_ne.
Qed.

Lemma render_section_missing root (marker : string) (names : list string) :
  root !! marker = None → names ≠ [] →
  render_section lib root marker names = Throws null_container.
Proof.
  intros Hc Hn. unfold render_section. rewrite Hc.
  destruct names as [|n names]; [done|].
  rewrite renderRuleList_null_cons.
  by destruct (described_rules lib n) as [d ->].
Qed.


Lemma render_sections_missing secs root :
  Forall (λ s, s.2 ≠ []) secs →
  Exists (λ s, root !! s.1 = None) secs →
  foldl (section_step lib) (Returns root) secs = Throws null_container.
Proof.
  revert root. induction secs as [|s secs IH]; intros root Hne Hex.
  - by apply Exists_nil in Hex.
  - apply Forall_cons in Hne as [Hs Hne]. simpl.
    destruct (root !! s.1) as [c|] eqn:Hc.
    + rewrite (render_section_present root s.1 s.2 c Hc). apply IH; [done|].
      apply Exists_cons in Hex as [Hex | Hex]; [congruence|].
      eapply Exists_impl; [exact Hex|]. intros s' Hs'. simpl.
      rewrite lookup_alter. case_decide; [subst; congruence | done].
    + rewrite render_section_missing by done. apply section_step_throws.
Qed.



Lemma section_lists_nonempty : Forall (λ s, s.2 ≠ []) section_lists.
Proof. repeat constructor; discriminate. Qed.

Lemma renderAllSections_fold root :
  renderAllSections lib root =
  foldl (section_step lib) (Returns root) section_lists.
Proof. reflexivity. Qed.

End Entry_facts.





(** X6. When the container of one of the six sections is missing from the
    root, [renderAllSections] throws the [TypeError] of the [null]
    container: a missing section is not skipped. *)
Theorem renderAllSections_missing_container (lib : RR.Build)
  (root : gmap string Element)
  (Hmissing : Exists (λ s : string * list string, root !! s.1 = None)
                section_lists) :
  renderAllSections lib root = Throws null_container.
Proof.
  rewrite renderAllSections_fold.
  apply render_sections_missing; [apply section_lists_nonempty | done].
Qed.

Lemma renderAllSections_missing_container_witness :
  renderAllSections lib_classes (delete "statements" page_root) =
  Throws null_container.
Proof.
  apply renderAllSections_missing_container.
  apply (bool_decide_unpack _). by vm_compute.
Defined.



(** ** Further properties of the rule-name filter *)

Lemma lower_unit_idemp c : lower_unit (lower_unit c) = lower_unit c.
Proof. destruct c as [[] [] [] [] [] [] [] []]; reflexivity. Qed.

Lemma is_space_lower_unit c : is_space (lower_unit c) = is_space c.
Proof. destruct c as [[] [] [] [] [] [] [] []]; reflexivity. Qed.

Lemma toLowerCase_idemp s : toLowerCase (toLowerCase s) = toLowerCase s.
Proof.
  induction s as [|c s IH]; simpl; [done|]. by rewrite lower_unit_idemp, IH.
Qed.

Lemma trimStart_toLowerCase s :
  trimStart (toLowerCase s) = toLowerCase (trimStart s).
Proof.
  induction s as [|c s IH]; simpl; [done|].
  rewrite is_space_lower_unit. by destruct (is_space c).
Qed.

Lemma trimEnd_toLowerCase s :
  trimEnd (toLowerCase s) = toLowerCase (trimEnd s).
Proof.
  induction s as [|c s IH]; simpl; [done|].
  rewrite IH, is_space_lower_unit.
  destruct (trimEnd s) as [|a t]; simpl; [|done].
  by destruct (is_space c).
Qed.

Lemma trim_toLowerCase s : trim (toLowerCase s) = toLowerCase (trim s).
Proof. unfold trim. by rewrite trimStart_toLowerCase, trimEnd_toLowerCase. Qed.

Lemma trimEnd_idemp s : trimEnd (trimEnd s) = trimEnd s.
Proof.
  induction s as [|c s IH]; simpl; [done|].
  destruct (trimEnd s) as [|a t] eqn:Hs.
  - destruct (is_space c) eqn:Hc; simpl; [done|]. by rewrite Hc.
  - change (trimEnd (String c (String a t)))
      with (match trimEnd (String a t) with
            | EmptyString =>
                if is_space c then EmptyString else String c EmptyString
            | String _ _ as t' => String c t'
            end).
    by rewrite IH.
Qed.

Lemma trimStart_clean s : starts_clean (trimStart s).
Proof.
  induction s as [|c s IH]; simpl; [done|].
  by destruct (is_space c) eqn:Hc.
Qed.

Lemma trimStart_of_clean s : starts_clean s → trimStart s = s.
Proof. destruct s as [|c s]; simpl; [done|]. by intros ->. Qed.

Lemma trimEnd_clean s : starts_clean s → starts_clean (trimEnd s).
Proof.
  destruct s as [|c s]; simpl; [done|]. intros Hc.
  destruct (trimEnd s); simpl; [by rewrite Hc | done].
Qed.

Lemma trim_idemp s : trim (trim s) = trim s.
Proof.
  unfold trim.
  rewrite (trimStart_of_clean (trimEnd (trimStart s)))
    by apply trimEnd_clean, trimStart_clean.
  apply trimEnd_idemp.
Qed.

Lemma trim_all_spaces s : all_spaces s = true → trim s = "".
Proof.
  intros H. unfold trim.
  assert (Hs : trimStart s = "").
  { induction s as [|c s IH]; simpl in *; [done|].
    apply andb_true_iff in H as [-> H]. by apply IH. }
  by rewrite Hs.
Qed.

Lemma includes_trans (a b c : string) :
  includes a b = true → includes b c = true → includes a c = true.
Proof.
  rewrite !includes_spec.
  intros (p1 & q1 & ->) (p2 & q2 & ->).
  exists (p1 ++ p2), (q2 ++ q1). by rewrite !string_app_assoc.
Qed.

Lemma List_filter_implies {A} (P Q : A → bool) (l : list A) :
  (∀ x, P x = true → Q x = true) →
  List.filter P l `sublist_of` List.filter Q l.
Proof.
  intros H. induction l as [|x l IH]; simpl; [constructor|].
  destruct (P x) eqn:HP.
  - rewrite (H x HP). by constructor.
  - destruct (Q x); [by constructor | done].
Qed.

Lemma List_filter_idemp {A} (P : A → bool) (l : list A) :
  List.filter P (List.filter P l) = List.filter P l.
Proof.
  induction l as [|x l IH]; simpl; [done|].
  destruct (P x) eqn:HP; simpl; [by rewrite HP, IH | done].
Qed.

(** X8. The case of the query and white space around it are of no
    account: the lower-cased query and the trimmed query select the same
    names as the query itself. *)
Theorem filterNames_query_normal (query : string) (names : list string) :
  filterNames (toLowerCase query) names = filterNames query names ∧
  filterNames (trim query) names = filterNames query names.
Proof.
  rewrite !filterNames_filter. split.
  - by rewrite trim_toLowerCase, toLowerCase_idemp.
  - by rewrite trim_idemp.
Qed.

(** X9. Filtering goes name by name: the filter of a concatenation is the
    concatenation of the filters, and filtering what was filtered with the
    same query changes nothing. *)
Theorem filterNames_app_idemp (query : string) (names1 names2 : list string) :
  filterNames query (names1 ++ names2)%list =
    (filterNames query names1 ++ filterNames query names2)%list ∧
  filterNames query (filterNames query names1) = filterNames query names1.
Proof.
  rewrite !filterNames_filter. split.
  - apply List.filter_app.
  - apply List_filter_idemp.
Qed.

(** X10. A longer query narrows the result: when the normal form (trimmed,
    lower case) of [query1] is contained in that of [query2], the names
    kept for [query2] are among the names kept for [query1], in the same
    order. *)
Theorem filterNames_narrows (query1 query2 : string) (names : list string)
  (Hq : includes (toLowerCase (trim query2)) (toLowerCase (trim query1))
        = true) :
  filterNames query2 names `sublist_of` filterNames query1 names.
Proof.
  rewrite !filterNames_filter. apply List_filter_implies.
  intros n Hn. by apply includes_trans with (toLowerCase (trim query2)).
Qed.

Lemma filterNames_narrows_witness :
  filterNames "Declarator" ["declarator"; "declaration"; "init-declarator"]
  `sublist_of`
  filterNames "decl " ["declarator"; "declaration"; "init-declarator"].
Proof. apply filterNames_narrows. reflexivity. Defined.

(** X11. A query of white space only (blanks, tabs, line ends, no-break
    spaces) keeps every name: the list is returned as it is. *)
Theorem filterNames_blank_query (query : string) (names : list string)
  (Hblank : all_spaces query = true) :
  filterNames query names = names.
Proof.
  unfold filterNames. by rewrite (trim_all_spaces query Hblank).
Qed.

Lemma filterNames_blank_query_witness :
  filterNames "   " ["declarator"; "pointer"] = ["declarator"; "pointer"].
Proof. apply filterNames_blank_query. reflexivity. Defined.

(** X12. [filteredBySection] has an entry for exactly the sections of
    [SECTION_ORDER], and the entry of a section is the filter of the names
    of that section: a name never moves to another section, and a section
    whose names are all filtered away keeps its (empty) entry. *)
Theorem filteredBySection_lookup (SECTION_ORDER : list string)
  (SECTION_RULES : string → list string) (query s : string) :
  filteredBySection SECTION_ORDER SECTION_RULES query !! s =
  if decide (s ∈ SECTION_ORDER)
  then Some (filterNames query (SECTION_RULES s))
  else None.
Proof.
  unfold filteredBySection.
  assert (H : ∀ (out : gmap string (list string)),
    foldl (λ out s, <[s := filterNames query (SECTION_RULES s)]> out) out
      SECTION_ORDER !! s =
    if decide (s ∈ SECTION_ORDER)
    then Some (filterNames query (SECTION_RULES s))
    else out !! s).
  { induction SECTION_ORDER as [|t order IH]; intros out; cbn [foldl].
    - by rewrite decide_False by apply not_elem_of_nil.
    - rewrite IH. destruct (decide (s ∈ order)) as [Hin | Hnin].
      + by rewrite decide_True by by right.
      + destruct (decide (t = s)) as [-> | Hne].
        * rewrite lookup_insert_eq. by rewrite decide_True by by left.
        * rewrite lookup_insert_ne by done.
          rewrite decide_False; [done|].
          intros [? | ?]%elem_of_cons; congruence. }
  rewrite H. by destruct (decide (s ∈ SECTION_ORDER)).
Qed.

Example filteredBySection_two :
  filteredBySection ["declarations"; "statements"] two_sections "decl"
    !! "statements" = Some [] ∧
  filteredBySection ["declarations"; "statements"] two_sections "decl"
    !! "declarations" = Some ["declarator"].
Proof. by vm_compute. Qed.

(** ** Further properties of the registry and of the chain *)

Section Tower_facts.

Local Open Scope list_scope.

Lemma description_list_build (lib : RR.Build) :
  description_list lib = description_list lib_classes.
Proof. destruct lib as [[] s1 s2 s3]; by vm_compute. Qed.

Lemma description_list_names (lib : RR.Build) :
  (description_list lib).*1 = (rule_sets lib).*1.
Proof.
  unfold description_list. rewrite <- list_fmap_compose.
  by apply list_fmap_ext.
Qed.

Lemma described_by_list (lib : RR.Build) (name : string) (d : Outcome Item) :
  described (rules lib) name = d ↔
  (name, d) ∈ description_list lib ∨
  ((name ∉ (description_list lib).*1) ∧ d = Returns (placeholder name)).
Proof.
  rewrite description_list_names. unfold described, description_list. split.
  - destruct (rules lib !! name) as [f|] eqn:Hf; intros <-.
    + left. apply rules_lookup in Hf.
      apply list_elem_of_fmap. by exists (name, f).
    + right. split; [|done]. rewrite <- rules_is_Some, Hf.
      by intros [? ?].
  - intros [Hin | [Hnin ->]].
    + apply list_elem_of_fmap in Hin as ([k f] & [= -> ->] & Hin).
      apply rules_lookup in Hin. by rewrite Hin.
    + rewrite <- rules_is_Some in Hnin.
      destruct (rules lib !! name) as [f|]; [|done].
      exfalso. apply Hnin. by eexists.
Qed.

(** The ten rules that follow the fifteen first ones are the levels. *)
Lemma levels_in_description_list :
  take 10 (drop 15 (description_list lib_classes)) =
  (λ lvl : string * (string * list string),
     (lvl.1, Returns (RR.ItemDiagram [chain_item lvl.2.1 lvl.2.2])))
    <$> precedence_levels.
Proof. by vm_compute. Qed.

End Tower_facts.

(** X13. The ten levels of binary operators form one tower: each level is
    registered with the chain of its operand and operators, the operand of
    a level is the rule of the level before it (from "cast-expression" up
    to "logical-OR-expression"), and no operator belongs to two levels. *)
Theorem precedence_tower (lib : RR.Build) :
  Forall (λ lvl : string * (string * list string),
            is_Some (rules lib !! lvl.1) ∧
            described (rules lib) lvl.1 =
            Returns (RR.ItemDiagram [chain_item lvl.2.1 lvl.2.2]))
    precedence_levels ∧
  map (λ lvl : string * (string * list string), lvl.2.1) precedence_levels =
    ("cast-expression" :: removelast (map fst precedence_levels))%list ∧
  NoDup (concat (map (λ lvl : string * (string * list string), lvl.2.2)
                   precedence_levels)).
Proof.
  split; [|split].
  - apply Forall_forall. intros lvl Hlvl. split.
    + apply rules_is_Some. revert lvl Hlvl. apply Forall_forall.
      apply (bool_decide_unpack _). by vm_compute.
    + apply described_by_list. left. rewrite description_list_build.
      apply (subseteq_drop 15), (subseteq_take 10).
      rewrite levels_in_description_list.
      apply list_elem_of_fmap. by exists lvl.
  - reflexivity.
  - apply (bool_decide_unpack _). by vm_compute.
Qed.

(** X14. More operators, more words: a chain over [ops2] accepts every
    word that the chain of the same operand over [ops1] accepts, when every
    operator of [ops1] is among [ops2]. The order of the operators and
    repetitions among them are of no account. *)
Theorem chain_more_operators (X : string) (ops1 ops2 : list string)
  (Hsub : ∀ o, o ∈ ops1 → o ∈ ops2) (w : list Sym)
  (Hw : accepts (chain_item X ops1) w = true) :
  accepts (chain_item X ops2) w = true.
Proof.
  apply accepts_chain_item. apply accepts_chain_item in Hw as (os & Hos & ->).
  exists os. split; [|done]. eapply Forall_impl; [exact Hos|]. exact Hsub.
Qed.

Lemma chain_more_operators_witness :
  accepts (chain_item "shift-expression" ["<"; ">"; "<="; ">="])
    [Ref "shift-expression"; Tok ">"; Ref "shift-expression"] = true.
Proof.
  apply (chain_more_operators "shift-expression" [">"; ">"; "<"]).
  - intros o Ho. apply (bool_decide_unpack _).
    repeat (apply elem_of_cons in Ho as [-> | Ho]; [by vm_compute|]).
    by apply not_elem_of_nil in Ho.
  - reflexivity.
Defined.

(** X15. The registry does not depend on how the package exports its
    primitives: for every name, the two registries built on two builds hold
    a factory for the same names, and what is mounted for the name (the
    description that its factory returns, or the placeholder) is the same. *)
Theorem descriptions_independent_of_build (lib1 lib2 : RR.Build)
  (name : string) :
  (is_Some (rules lib1 !! name) ↔ is_Some (rules lib2 !! name)) ∧
  described (rules lib1) name = described (rules lib2) name.
Proof.
  split.
  - rewrite !rules_is_Some, <- !description_list_names.
    by rewrite (description_list_build lib1), (description_list_build lib2).
  - apply described_by_list.
    rewrite (description_list_build lib1), <- (description_list_build lib2).
    by apply described_by_list.
Qed.

(** X16. The registry holds 102 rules. Eight of them are in none of the
    name lists of [renderAllSections] and so get no block on the page,
    although other rules refer to them. *)
Theorem rules_without_section (lib : RR.Build) :
  length (rule_sets lib).*1 = 102 ∧
  List.filter (λ n, bool_decide (n ∉ concat section_lists.*2))
    (rule_sets lib).*1 =
  ["argument-expression-list"; "compound-literal"; "struct-or-union";
   "member-declarator-list"; "member-declarator"; "enum-type-specifier";
   "typeof-specifier-argument"; "primary-block"] ∧
  Forall (λ n, is_Some (rules lib !! n) ∧ n ∈ referenced_names lib)
    ["argument-expression-list"; "compound-literal"; "struct-or-union";
     "member-declarator-list"; "member-declarator"; "enum-type-specifier";
     "typeof-specifier-argument"; "primary-block"].
Proof.
  split; [done|]. split; [by vm_compute|].
  apply Forall_forall. intros n Hn. split.
  - apply rules_is_Some. revert n Hn. apply Forall_forall.
    apply (bool_decide_unpack _). by vm_compute.
  - revert n Hn. apply Forall_forall.
    destruct lib as [[] s1 s2 s3]; apply (bool_decide_unpack _);
      by vm_compute.
Qed.

(** X17. What the loop does for a list of names depends on the registry
    at these names only: two registries that agree on the names of the list
    give the same result, whatever else they hold. *)
Theorem renderRuleList_local (lib : RR.Build)
  (reg1 reg2 : gmap string (unit → Outcome Item))
  (sectionRoot : option Element) (names : list string)
  (Hagree : Forall (λ n, reg1 !! n = reg2 !! n) names) :
  renderRuleList lib sectionRoot reg1 names =
  renderRuleList lib sectionRoot reg2 names.
Proof.
  revert sectionRoot. induction Hagree as [|n names Hn _ IH]; intros r.
  - reflexivity.
  - cbn [renderRuleList]. rewrite Hn. destruct (reg2 !! n) as [f|].
    + destruct (f ()) as [d|e]; [|done]. cbn [mbind outcome_bind].
      destruct (mountRule r n (RR.object lib d)) as [c|e]; [|done]. apply IH.
    + destruct (Diagram lib $* [Comment lib ("No factory defined for " +:+ n)])
        as [d|e]; [|done]. cbn [mbind outcome_bind].
      destruct (mountRule r n (RR.object lib d)) as [c|e]; [|done]. apply IH.
Qed.

Lemma renderRuleList_local_witness :
  renderRuleList lib_classes (Some (createElement "section")) broken_rule
    ["token"; "keyword"] =
  renderRuleList lib_classes (Some (createElement "section")) token_only
    ["token"; "keyword"].
Proof.
  apply renderRuleList_local. repeat constructor.
Defined.

(** ** The page as a store: new nodes and frames *)

Section Live_facts.

Local Open Scope nat_scope.
Local Open Scope list_scope.

Implicit Types (p q : Live.Page) (r : Live.ref) (n : Node)
  (S : Live.ref → Prop).

(** A tree stays where the kinds of its nodes stay. *)
Lemma Tree_frame S S' p p' :
  (∀ x, S x → S' x ∧ Live.kind <$> Live.cells p' !! x = Live.kind <$> Live.cells p !! x) →
  (∀ r n, Live.Tree S p r n → Live.Tree S' p' r n) ∧
  (∀ rs ns, Live.Trees S p rs ns → Live.Trees S' p' rs ns).
Proof.
  intros H.
  assert (Hk : ∀ x k y, S x → Live.cells p !! x = Some (Live.mkCell k y) →
                 ∃ y', Live.cells p' !! x = Some (Live.mkCell k y')).
  { intros x k y Hx Hc. destruct (H x Hx) as [_ Heq]. rewrite Hc in Heq.
    destruct (Live.cells p' !! x) as [[k' y']|]; [|done].
    injection Heq as ->. by exists y'. }
  split.
  - apply (Live.Tree_mind S p (λ r n, Live.Tree S' p' r n)
             (λ rs ns, Live.Trees S' p' rs ns)).
    + intros r s y Hr Hc. destruct (Hk r _ _ Hr Hc) as [y' Hc'].
      eapply Live.Tree_text; [by apply H | exact Hc'].
    + intros r s y Hr Hc. destruct (Hk r _ _ Hr Hc) as [y' Hc'].
      eapply Live.Tree_markup; [by apply H | exact Hc'].
    + intros r t k i ks ns y Hr Hc _ IH. destruct (Hk r _ _ Hr Hc) as [y' Hc'].
      eapply Live.Tree_element; [by apply H | exact Hc' | exact IH].
    + constructor.
    + intros r n rs ns _ IH1 _ IH2. by constructor.
  - apply (Live.Trees_mind S p (λ r n, Live.Tree S' p' r n)
             (λ rs ns, Live.Trees S' p' rs ns)).
    + intros r s y Hr Hc. destruct (Hk r _ _ Hr Hc) as [y' Hc'].
      eapply Live.Tree_text; [by apply H | exact Hc'].
    + intros r s y Hr Hc. destruct (Hk r _ _ Hr Hc) as [y' Hc'].
      eapply Live.Tree_markup; [by apply H | exact Hc'].
    + intros r t k i ks ns y Hr Hc _ IH. destruct (Hk r _ _ Hr Hc) as [y' Hc'].
      eapply Live.Tree_element; [by apply H | exact Hc' | exact IH].
    + constructor.
    + intros r n rs ns _ IH1 _ IH2. by constructor.
Qed.

(** A node has one tree. *)
Lemma Tree_functional S S' p :
  (∀ r n, Live.Tree S p r n → ∀ n', Live.Tree S' p r n' → n = n') ∧
  (∀ rs ns, Live.Trees S p rs ns → ∀ ns', Live.Trees S' p rs ns' → ns = ns').
Proof.
  split.
  - apply (Live.Tree_mind S p (λ r n, ∀ n', Live.Tree S' p r n' → n = n')
             (λ rs ns, ∀ ns', Live.Trees S' p rs ns' → ns = ns')).
    + intros r s y _ Hc n' Hn'. inversion Hn'; congruence.
    + intros r s y _ Hc n' Hn'. inversion Hn'; congruence.
    + intros r t k i ks ns y _ Hc _ IH n' Hn'.
      inversion Hn' as [| |? ? ? ? ks' ns' y' _ Hc' Hks']; try congruence.
      subst. rewrite Hc in Hc'. injection Hc' as <- <- <- <-.
      by rewrite (IH ns' Hks').
    + intros ns' Hns'. by inversion Hns'.
    + intros r n rs ns _ IH1 _ IH2 ns' Hns'.
      inversion Hns' as [|? n' ? ns'' Hn' Hns'']; subst.
      by rewrite (IH1 n' Hn'), (IH2 ns'' Hns'').
  - apply (Live.Trees_mind S p (λ r n, ∀ n', Live.Tree S' p r n' → n = n')
             (λ rs ns, ∀ ns', Live.Trees S' p rs ns' → ns = ns')).
    + intros r s y _ Hc n' Hn'. inversion Hn'; congruence.
    + intros r s y _ Hc n' Hn'. inversion Hn'; congruence.
    + intros r t k i ks ns y _ Hc _ IH n' Hn'.
      inversion Hn' as [| |? ? ? ? ks' ns' y' _ Hc' Hks']; try congruence.
      subst. rewrite Hc in Hc'. injection Hc' as <- <- <- <-.
      by rewrite (IH ns' Hks').
    + intros ns' Hns'. by inversion Hns'.
    + intros r n rs ns _ IH1 _ IH2 ns' Hns'.
      inversion Hns' as [|? n' ? ns'' Hn' Hns'']; subst.
      by rewrite (IH1 n' Hn'), (IH2 ns'' Hns'').
Qed.

Lemma lookup_update_eq r (f : Live.Cell → Live.Cell) p :
  Live.cells (Live.update r f p) !! r = f <$> Live.cells p !! r.
Proof. apply lookup_alter_eq. Qed.

Lemma lookup_update_ne r x (f : Live.Cell → Live.Cell) p :
  r ≠ x → Live.cells (Live.update r f p) !! x = Live.cells p !! x.
Proof. intros. by apply lookup_alter_ne. Qed.

Lemma lookup_create_eq k y p :
  Live.cells (Live.create k y p).2 !! Live.next p = Some (Live.mkCell k y).
Proof. apply lookup_insert_eq. Qed.

Lemma lookup_create_ne k y p x :
  x ≠ Live.next p → Live.cells (Live.create k y p).2 !! x = Live.cells p !! x.
Proof. intros. by apply lookup_insert_ne. Qed.

(** Induction on a node through the lists of children. *)
Lemma Node_nested_ind (P : Node → Prop) :
  (∀ s, P (TextNode s)) →
  (∀ s, P (ParsedMarkup s)) →
  (∀ t k i ns, Forall P ns → P (ElementNode (mkElement t k i ns))) →
  ∀ n, P n.
Proof.
  intros Ht Hm He.
  fix IH 1. intros [[t k i ns]|s|s]; [|apply Ht|apply Hm].
  apply He. induction ns as [|n ns IHns]; constructor; [apply IH | exact IHns].
Qed.

Lemma alloc_element_eq parent t k i ns p :
  Live.alloc_node parent (ElementNode (mkElement t k i ns)) p =
  let r := Live.next p in
  let p1 := (Live.create (Live.ElementKind t k i []) parent p).2 in
  let rp := Live.alloc_all (Some r) ns p1 in
  (r, Live.update r (Live.with_children rp.1) rp.2).
Proof.
  simpl. unfold Live.alloc_all.
  by destruct ((fix alloc_all (ns0 : list Node) (p0 : Live.Page) := _) ns _).
Qed.

Lemma alloc_all_cons parent n ns p :
  Live.alloc_all parent (n :: ns) p =
  let rp := Live.alloc_node parent n p in
  let rp' := Live.alloc_all parent ns rp.2 in
  (rp.1 :: rp'.1, rp'.2).
Proof.
  simpl. destruct (Live.alloc_node parent n p) as [r p1]. simpl.
  by destruct (Live.alloc_all parent ns p1).
Qed.

Lemma alloc_all_spec parent ns :
  Forall (λ n, ∀ parent p, Live.allocated parent p n (Live.alloc_node parent n p))
    ns →
  ∀ p, Live.allocated_all p ns (Live.alloc_all parent ns p).
Proof.
  induction 1 as [|n ns Hn _ IH]; intros p.
  - split; [done|]. split; [done | constructor].
  - rewrite alloc_all_cons. simpl.
    destruct (Hn parent p) as (Hr & Hlt & Hfr & Htree & _).
    destruct (IH (Live.alloc_node parent n p).2) as (Hle & Hfr' & Htrees).
    unfold Live.allocated_all. cbn [fst snd].
    split; [lia|]. split.
    + intros x Hx. rewrite Hfr' by lia. by apply Hfr.
    + constructor.
      * revert Htree. apply Tree_frame. intros x [Hx1 Hx2]. split.
        -- unfold Live.between. lia.
        -- by rewrite Hfr'.
      * revert Htrees. apply Tree_frame. intros x [Hx1 Hx2]. split; [|done].
        unfold Live.between. lia.
Qed.

Lemma alloc_node_spec n :
  ∀ parent p, Live.allocated parent p n (Live.alloc_node parent n p).
Proof.
  induction n as [s|s|t k i ns IH] using Node_nested_ind; intros parent p.
  - unfold Live.allocated. simpl. split; [done|]. split; [lia|]. split; [|split].
    + intros x Hx. apply lookup_insert_ne. lia.
    + eapply Live.Tree_text; [unfold Live.between; simpl; lia|].
      apply lookup_insert_eq.
    + eexists. apply lookup_insert_eq.
  - unfold Live.allocated. simpl. split; [done|]. split; [lia|]. split; [|split].
    + intros x Hx. apply lookup_insert_ne. lia.
    + eapply Live.Tree_markup; [unfold Live.between; simpl; lia|].
      apply lookup_insert_eq.
    + eexists. apply lookup_insert_eq.
  - rewrite alloc_element_eq. cbv zeta.
    set (r := Live.next p).
    set (p1 := (Live.create (Live.ElementKind t k i []) parent p).2).
    destruct (alloc_all_spec (Some r) ns IH p1) as (Hle & Hfr & Htrees).
    set (rp := Live.alloc_all (Some r) ns p1) in *.
    assert (Hn1 : Live.next p1 = S r) by done.
    assert (Hr : Live.cells rp.2 !! r =
                 Some (Live.mkCell (Live.ElementKind t k i []) parent)).
    { rewrite Hfr by lia. apply lookup_insert_eq. }
    assert (Hnext : ∀ f, Live.next (Live.update r f rp.2) = Live.next rp.2)
      by done.
    unfold Live.allocated. cbn [fst snd]. rewrite Hnext.
    split; [done|]. split; [lia|]. split; [|split].
    + intros x Hx. rewrite lookup_update_ne by (unfold r; lia).
      rewrite Hfr by lia. apply lookup_insert_ne. unfold r. lia.
    + eapply Live.Tree_element.
      * unfold Live.between. lia.
      * rewrite lookup_update_eq, Hr. reflexivity.
      * revert Htrees. apply Tree_frame. intros x [Hx1 Hx2]. split.
        -- unfold Live.between. lia.
        -- rewrite lookup_update_ne by lia. done.
    + eexists. rewrite lookup_update_eq, Hr. reflexivity.
Qed.

(** *** The steps of a computation on the page *)

Lemma run_bind_returns {A B} (m : Live.Run A) (f : A → Live.Run B) p a p' :
  m p = (Returns a, p') → (m ≫= f) p = f a p'.
Proof.
  intros H. unfold mbind, Live.run_bind, Live.bind. by rewrite H.
Qed.

Lemma run_bind_throws {A B} (m : Live.Run A) (f : A → Live.Run B) p e p' :
  m p = (Throws e, p') → (m ≫= f) p = (Throws e, p').
Proof.
  intros H. unfold mbind, Live.run_bind, Live.bind. by rewrite H.
Qed.

Lemma page_eta p : Live.mkPage (Live.cells p) (Live.next p) = p.
Proof. by destruct p. Qed.

Lemma update_same r (f : Live.Cell → Live.Cell) p cell :
  Live.cells p !! r = Some cell → f cell = cell → Live.update r f p = p.
Proof.
  intros Hc Hf. unfold Live.update. rewrite alter_id; [apply page_eta|].
  intros x Hx. congruence.
Qed.

Lemma remove_children_none r p cell :
  Live.cells p !! r = Some cell → Live.children (Live.kind cell) = [] →
  Live.remove_children r p = p.
Proof.
  intros Hc Hk. unfold Live.remove_children. rewrite Hc, Hk. simpl.
  apply (update_same r _ p cell Hc).
  destruct cell as [[t k i ks| |] y]; simpl in *; by subst.
Qed.

Lemma createElement_spec tag p :
  ∃ p', Live.createElement tag p = (Returns (Live.next p), p') ∧
        Live.next p' = S (Live.next p) ∧
        Live.cells p' !! Live.next p =
          Some (Live.mkCell (Live.ElementKind tag "" "" []) None) ∧
        ∀ x, x ≠ Live.next p → Live.cells p' !! x = Live.cells p !! x.
Proof.
  eexists. split; [reflexivity|]. split; [done|]. split.
  - apply lookup_insert_eq.
  - intros x Hx. by apply lookup_insert_ne.
Qed.

Lemma set_className_spec k' r p t k i ks y :
  Live.cells p !! r = Some (Live.mkCell (Live.ElementKind t k i ks) y) →
  ∃ p', Live.set_className k' r p = (Returns (), p') ∧
        Live.next p' = Live.next p ∧
        Live.cells p' !! r =
          Some (Live.mkCell (Live.ElementKind t k' i ks) y) ∧
        ∀ x, x ≠ r → Live.cells p' !! x = Live.cells p !! x.
Proof.
  intros Hc. eexists. split; [reflexivity|]. split; [done|]. split.
  - by rewrite lookup_update_eq, Hc.
  - intros x Hx. by rewrite lookup_update_ne.
Qed.

Lemma set_id_spec i' r p t k i ks y :
  Live.cells p !! r = Some (Live.mkCell (Live.ElementKind t k i ks) y) →
  ∃ p', Live.set_id i' r p = (Returns (), p') ∧
        Live.next p' = Live.next p ∧
        Live.cells p' !! r =
          Some (Live.mkCell (Live.ElementKind t k i' ks) y) ∧
        ∀ x, x ≠ r → Live.cells p' !! x = Live.cells p !! x.
Proof.
  intros Hc. eexists. split; [reflexivity|]. split; [done|]. split.
  - by rewrite lookup_update_eq, Hc.
  - intros x Hx. by rewrite lookup_update_ne.
Qed.

(** Replacing the children of an element that has none. *)
Lemma replace_children_spec (kd : Live.Kind) (n : Node) (empty : bool)
  r p t k i y :
  Live.cells p !! r = Some (Live.mkCell (Live.ElementKind t k i []) y) →
  r < Live.next p →
  (∀ S q x z, S x → Live.cells q !! x = Some (Live.mkCell kd z) →
              Live.Tree S q x n) →
  ∃ p' rs,
    Live.replace_children kd empty r p = (Returns (), p') ∧
    Live.next p ≤ Live.next p' ∧
    Live.cells p' !! r = Some (Live.mkCell (Live.ElementKind t k i rs) y) ∧
    Live.Trees (Live.between (Live.next p) (Live.next p')) p' rs
      (if empty then [] else [n]) ∧
    ∀ x, x < Live.next p → x ≠ r → Live.cells p' !! x = Live.cells p !! x.
Proof.
  intros Hc Hr Hn. unfold Live.replace_children.
  rewrite (remove_children_none r p _ Hc) by done.
  destruct empty.
  - exists p, []. split; [done|]. split; [done|]. split; [done|].
    split; [constructor | done].
  - exists (Live.update r (Live.with_children [Live.next p])
              (Live.create kd (Some r) p).2), [Live.next p].
    split; [reflexivity|].
    split; [simpl; lia|]. split; [|split].
    + rewrite lookup_update_eq, lookup_create_ne by lia. by rewrite Hc.
    + constructor; [|constructor]. apply (Hn _ _ _ (Some r)).
      * unfold Live.between. simpl. lia.
      * rewrite lookup_update_ne by lia. apply lookup_create_eq.
    + intros x Hx Hxr. rewrite lookup_update_ne by done.
      apply lookup_create_ne. lia.
Qed.

Lemma inclusive_ancestor_root fuel p a b k :
  Live.cells p !! b = Some (Live.mkCell k None) →
  Live.inclusive_ancestor fuel p a b = Nat.eqb a b.
Proof.
  intros Hb. destruct fuel; simpl; [apply orb_false_r|].
  rewrite Hb. apply orb_false_r.
Qed.

(** Appending a node that has no parent to an element that has none. *)
Lemma appendChild_spec child parent p t k i ks kc :
  Live.cells p !! parent =
    Some (Live.mkCell (Live.ElementKind t k i ks) None) →
  Live.cells p !! child = Some (Live.mkCell kc None) →
  child ≠ parent →
  ∃ p', Live.appendChild child parent p = (Returns (), p') ∧
        Live.next p' = Live.next p ∧
        Live.cells p' !! parent =
          Some (Live.mkCell (Live.ElementKind t k i (ks ++ [child])) None) ∧
        Live.cells p' !! child = Some (Live.mkCell kc (Some parent)) ∧
        ∀ x, x ≠ parent → x ≠ child →
             Live.cells p' !! x = Live.cells p !! x.
Proof.
  intros Hp Hc Hne. unfold Live.appendChild. rewrite Hp.
  rewrite (inclusive_ancestor_root _ p child parent _ Hp).
  rewrite (proj2 (Nat.eqb_neq child parent) Hne).
  unfold Live.detach. rewrite Hc.
  eexists. split; [reflexivity|]. split; [done|]. split; [|split].
  - rewrite lookup_update_eq, lookup_update_ne by done. by rewrite Hp.
  - rewrite lookup_update_ne, lookup_update_eq by done. by rewrite Hc.
  - intros x H1 H2. by rewrite !lookup_update_ne.
Qed.

End Live_facts.

Section Live_mount.

Local Open Scope nat_scope.
Local Open Scope list_scope.

Implicit Types (p q : Live.Page) (r s : Live.ref) (n : Node).

Lemma set_textContent_filled msg s p t k i :
  Live.cells p !! s = Some (Live.mkCell (Live.ElementKind t k i []) None) →
  s < Live.next p →
  ∃ p', Live.set_textContent msg s p = (Returns (), p') ∧
        Live.filled s t k i p
          (childNodes (Dom.set_textContent msg (mkElement t k i []))) p'.
Proof.
  intros Hc Hs.
  destruct (replace_children_spec (Live.TextKind msg) (TextNode msg)
              (bool_decide (msg = "")) s p t k i None Hc Hs)
    as (p' & rs & E & Hn & Hc' & Htr & Hfr).
  { intros S q x z Hx Hq. by eapply Live.Tree_text. }
  exists p'. split; [exact E|]. split; [exact Hn|]. split; [|exact Hfr].
  exists rs. split; [exact Hc'|].
  unfold Dom.set_textContent.
  destruct (decide (msg = "")) as [Hm|Hm].
  - by rewrite (bool_decide_eq_true_2 _ Hm) in Htr.
  - by rewrite (bool_decide_eq_false_2 _ Hm) in Htr.
Qed.

Lemma set_innerHTML_filled msg s p t k i :
  Live.cells p !! s = Some (Live.mkCell (Live.ElementKind t k i []) None) →
  s < Live.next p →
  ∃ p', Live.set_innerHTML msg s p = (Returns (), p') ∧
        Live.filled s t k i p
          (childNodes (Dom.set_innerHTML msg (mkElement t k i []))) p'.
Proof.
  intros Hc Hs.
  destruct (replace_children_spec (Live.MarkupKind msg) (ParsedMarkup msg)
              (bool_decide (msg = "")) s p t k i None Hc Hs)
    as (p' & rs & E & Hn & Hc' & Htr & Hfr).
  { intros S q x z Hx Hq. by eapply Live.Tree_markup. }
  exists p'. split; [exact E|]. split; [exact Hn|]. split; [|exact Hfr].
  exists rs. split; [exact Hc'|].
  unfold Dom.set_innerHTML.
  destruct (decide (msg = "")) as [Hm|Hm].
  - by rewrite (bool_decide_eq_true_2 _ Hm) in Htr.
  - by rewrite (bool_decide_eq_false_2 _ Hm) in Htr.
Qed.

(** A new subtree appended to an element that had no children. *)
Lemma alloc_append_filled n s p t k i :
  Live.cells p !! s = Some (Live.mkCell (Live.ElementKind t k i []) None) →
  s < Live.next p →
  ∃ p', Live.appendChild (Live.alloc_node None n p).1 s
          (Live.alloc_node None n p).2 = (Returns (), p') ∧
        Live.filled s t k i p [n] p'.
Proof.
  intros Hc Hs.
  destruct (alloc_node_spec n None p) as (Hr & Hlt & Hfr & Htree & kc & Hroot).
  set (rp := Live.alloc_node None n p) in *.
  destruct (appendChild_spec rp.1 s rp.2 t k i [] kc) as
    (p' & E & Hn & Hs' & Hr' & Hfr'); [by rewrite Hfr | exact Hroot | lia |].
  exists p'. split; [exact E|]. split; [lia|]. split.
  - exists [rp.1]. split; [exact Hs'|]. constructor; [|constructor].
    revert Htree. apply Tree_frame. intros x [Hx1 Hx2]. split.
    + unfold Live.between. lia.
    + destruct (decide (x = rp.1)) as [->|Hx].
      * by rewrite Hr', Hroot.
      * rewrite Hfr' by lia. done.
  - intros x Hx Hxs. rewrite Hfr' by lia. by apply Hfr.
Qed.

(** The [try]/[catch] of [mountRule] on the page, for an object of the
    package and an element [s] that has no children and no parent. *)
Lemma try_fill_filled lib d s p t k i :
  Live.cells p !! s = Some (Live.mkCell (Live.ElementKind t k i []) None) →
  s < Live.next p →
  ∃ p', Live.try_catch (Live.fill_svgwrap (Live.object lib d) s)
          (λ e, Live.set_textContent ("Render error: " +:+ error_text e) s) p
        = (Returns (), p') ∧
        Live.filled s t k i p
          (childNodes (try_fill_svgwrap (RR.object lib d) (mkElement t k i [])))
          p'.
Proof.
  intros Hc Hs.
  pose proof (λ msg, set_textContent_filled msg s p t k i Hc Hs) as Htext.
  pose proof (λ msg, set_innerHTML_filled msg s p t k i Hc Hs) as Hhtml.
  unfold Live.try_catch, try_fill_svgwrap, Live.fill_svgwrap, fill_svgwrap,
    Live.object, RR.object.
  cbn [Live.toSVG Live.toString Live.addTo toSVG toString addTo].
  destruct (RR.item_toSVG lib) as [f|]; cbn [fmap option_fmap option_map].
  { unfold mbind, Live.run_bind, Live.bind, Live.lift, Live.ret, Live.throw.
    destruct (f d) as [[m|n| |]|e]; cbn [mbind outcome_bind].
    - destruct (Hhtml m) as (p' & E & F). rewrite E. by exists p'.
    - destruct (alloc_append_filled n s p t k i Hc Hs) as (p' & E & F).
      destruct (Live.alloc_node None n p) as [r q]. cbn [fst snd] in E.
      rewrite E. by exists p'.
    - apply Htext.
    - destruct (Htext "toSVG() returned an unexpected value."%string)
        as (p' & E & F). rewrite E. by exists p'.
    - apply Htext. }
  destruct (RR.item_toString lib) as [f|]; cbn [fmap option_fmap option_map].
  { unfold mbind, Live.run_bind, Live.bind, Live.lift, Live.ret, Live.throw.
    destruct (f d) as [m|e]; cbn [mbind outcome_bind].
    - destruct (Hhtml m) as (p' & E & F). rewrite E. by exists p'.
    - apply Htext. }
  destruct (RR.item_addTo lib) as [f|]; cbn [fmap option_fmap option_map].
  { rewrite Hc. cbn [Live.kind Live.children map childNodes].
    destruct (f d []) as [ns|e]; cbn [mbind outcome_bind].
    - rewrite (remove_children_none s p _ Hc) by done.
      destruct (alloc_all_spec (Some s) ns
                  (proj2 (Forall_forall _ _) (λ n _, alloc_node_spec n)) p)
        as (Hn & Hfr & Htr).
      destruct (Live.alloc_all (Some s) ns p) as [rs q]. cbn [fst snd] in *.
      eexists. split; [reflexivity|]. split; [exact Hn|]. split.
      + exists rs. split.
        * rewrite lookup_update_eq, Hfr, Hc by done. reflexivity.
        * revert Htr. apply Tree_frame. intros x [Hx1 Hx2]. split; [done|].
          rewrite lookup_update_ne by lia. done.
      + intros x Hx Hxs. rewrite lookup_update_ne by done. by apply Hfr.
    - apply Htext. }
  destruct (Htext
    "Diagram object does not support toSVG/toString/addTo in this build."%string)
    as (p' & E & F). rewrite E. by exists p'.
Qed.

Ltac run_step E := rewrite (run_bind_returns _ _ _ _ _ E); cbv beta.

(** [mountRule] on the page, for an object of the package and a container
    that has no parent: it returns, the container has one more child, the
    block of the rule, made of new nodes, and no other node that was there
    has changed. *)
Lemma live_mountRule_spec lib d name c p tag kc ic ks :
  Live.cells p !! c = Some (Live.mkCell (Live.ElementKind tag kc ic ks) None) →
  c < Live.next p →
  ∃ p', Live.mountRule (Some c) name (Live.object lib d) p = (Returns (), p') ∧
        Live.next p < Live.next p' ∧
        Live.cells p' !! c =
          Some (Live.mkCell (Live.ElementKind tag kc ic (ks ++ [Live.next p]))
                  None) ∧
        Live.Tree (Live.between (Live.next p) (Live.next p')) p' (Live.next p)
          (rule_block name (shown (RR.object lib d))) ∧
        ∀ x, x < Live.next p → x ≠ c → Live.cells p' !! x = Live.cells p !! x.
Proof.
  intros Hc Hlt. unfold Live.mountRule.
  destruct (createElement_spec "div" p) as (p1 & E1 & N1 & C1 & F1).
  run_step E1.
  destruct (set_className_spec "rule" _ p1 _ _ _ _ _ C1)
    as (p2 & E2 & N2 & C2 & F2).
  run_step E2.
  destruct (set_id_spec ("rule-" +:+ name) _ p2 _ _ _ _ _ C2)
    as (p3 & E3 & N3 & C3 & F3).
  run_step E3.
  destruct (createElement_spec "h3" p3) as (p4 & E4 & N4 & C4 & F4).
  run_step E4.
  destruct (set_textContent_filled name _ p4 "h3" "" "" C4 ltac:(lia))
    as (p5 & E5 & N5 & (rsh & C5 & T5) & F5).
  run_step E5.
  assert (W5 : Live.cells p5 !! Live.next p =
               Some (Live.mkCell
                       (Live.ElementKind "div" "rule" ("rule-" +:+ name) [])
                       None)).
  { rewrite F5, F4 by lia. exact C3. }
  destruct (appendChild_spec _ _ p5 _ _ _ _ _ W5 C5 ltac:(lia))
    as (p6 & E6 & N6 & W6 & H6 & F6).
  run_step E6.
  destruct (createElement_spec "div" p6) as (p7 & E7 & N7 & C7 & F7).
  run_step E7.
  destruct (set_className_spec "svgwrap" _ p7 _ _ _ _ _ C7)
    as (p8 & E8 & N8 & C8 & F8).
  run_step E8.
  destruct (try_fill_filled lib d _ p8 "div" "svgwrap" "" C8 ltac:(lia))
    as (p9 & E9 & N9 & (rss & C9 & T9) & F9).
  run_step E9.
  assert (W9 : Live.cells p9 !! Live.next p =
               Some (Live.mkCell
                       (Live.ElementKind "div" "rule" ("rule-" +:+ name)
                          ([] ++ [Live.next p3]))
                       None)).
  { rewrite F9, F8, F7 by lia. exact W6. }
  destruct (appendChild_spec _ _ p9 _ _ _ _ _ W9 C9 ltac:(lia))
    as (p10 & E10 & N10 & W10 & S10 & F10).
  run_step E10.
  assert (Cc : Live.cells p10 !! c =
               Some (Live.mkCell (Live.ElementKind tag kc ic ks) None)).
  { rewrite F10, F9, F8, F7, F6, F5, F4, F3, F2, F1 by lia. exact Hc. }
  cbn [Live.appendChild_to].
  destruct (appendChild_spec _ _ p10 _ _ _ _ _ Cc W10 ltac:(lia))
    as (p11 & E11 & N11 & C11 & W11 & F11).
  exists p11. split; [exact E11|]. split; [lia|]. split; [exact C11|]. split.
  - unfold rule_block.
    eapply Live.Tree_element; [unfold Live.between; lia | exact W11 |].
    constructor; [|constructor; [|constructor]].
    + eapply Live.Tree_element with (ks := rsh) (y := Some (Live.next p)).
      * unfold Live.between. lia.
      * rewrite F11, F10, F9, F8, F7 by lia. exact H6.
      * revert T5. apply Tree_frame. intros x [Hx1 Hx2]. split.
        -- unfold Live.between. lia.
        -- rewrite F11, F10, F9, F8, F7, F6 by lia. done.
    + eapply Live.Tree_element with (ks := rss) (y := Some (Live.next p)).
      * unfold Live.between. lia.
      * rewrite F11 by lia. exact S10.
      * revert T9. apply Tree_frame. intros x [Hx1 Hx2]. split.
        -- unfold Live.between. lia.
        -- rewrite F11, F10 by lia. done.
  - intros x Hx Hxc.
    rewrite F11, F10, F9, F8, F7, F6, F5, F4, F3, F2, F1 by lia. done.
Qed.

(** A single name: the factory is called, or the placeholder built, and
    the diagram mounted. *)
Lemma live_renderRuleList_single lib reg name c p :
  Live.renderRuleList lib (Some c) reg [name] p =
  match described reg name with
  | Returns d => Live.mountRule (Some c) name (Live.object lib d) p
  | Throws e => (Throws e, p)
  end.
Proof.
  cbn [Live.renderRuleList]. unfold described.
  destruct (reg !! name) as [f|].
  - unfold mbind, Live.run_bind, Live.bind, Live.lift, mret, Live.run_ret,
      Live.ret.
    destruct (f ()) as [d|e]; [|done].
    by destruct (Live.mountRule (Some c) name (Live.object lib d) p)
      as [[[]|e] q].
  - rewrite placeholder_built.
    unfold mbind, Live.run_bind, Live.bind, Live.lift, mret, Live.run_ret,
      Live.ret.
    by destruct (Live.mountRule (Some c) name
                   (Live.object lib (placeholder name)) p) as [[[]|e] q].
Qed.

Lemma live_renderRuleList_cons lib reg name rest c p :
  Live.renderRuleList lib (Some c) reg (name :: rest) p =
  match described reg name with
  | Returns d =>
      (Live.mountRule (Some c) name (Live.object lib d);;
       Live.renderRuleList lib (Some c) reg rest) p
  | Throws e => (Throws e, p)
  end.
Proof.
  cbn [Live.renderRuleList]. unfold described.
  destruct (reg !! name) as [f|].
  - unfold Live.lift. by destruct (f ()) as [d|e].
  - by rewrite placeholder_built.
Qed.

Lemma Trees_app S p rs1 ns1 rs2 ns2 :
  Live.Trees S p rs1 ns1 → Live.Trees S p rs2 ns2 →
  Live.Trees S p (rs1 ++ rs2) (ns1 ++ ns2).
Proof.
  intros H1 H2. revert rs1 ns1 H1.
  apply (Live.Trees_mind S p (λ r n, Live.Tree S p r n)
           (λ rs ns, Live.Trees S p (rs ++ rs2) (ns ++ ns2))).
  - intros. by eapply Live.Tree_text.
  - intros. by eapply Live.Tree_markup.
  - intros. by eapply Live.Tree_element.
  - exact H2.
  - intros r n rs ns _ Hn _ IH. simpl. by constructor.
Qed.

(** The rendering on the page and the rendering on values agree, for a
    container without a parent whose children are other nodes than
    itself: both end the same way, and when they return the container
    reads as the element that the rendering on values returns. *)
Lemma live_renderRuleList_refines lib reg names :
  ∀ p c t k i ks ns,
    Live.cells p !! c = Some (Live.mkCell (Live.ElementKind t k i ks) None) →
    c < Live.next p →
    Live.Trees (λ x, x < Live.next p ∧ x ≠ c) p ks ns →
    ∃ p',
      Live.renderRuleList lib (Some c) reg names p =
        ((λ _, ()) <$> renderRuleList lib (Some (mkElement t k i ns)) reg names,
         p') ∧
      Live.next p ≤ Live.next p' ∧
      (∀ x, x < Live.next p → x ≠ c →
            Live.cells p' !! x = Live.cells p !! x) ∧
      ∀ e', renderRuleList lib (Some (mkElement t k i ns)) reg names =
              Returns (Some e') →
            Live.Tree (λ x, x < Live.next p') p' c (ElementNode e').
Proof.
  induction names as [|name rest IH]; intros p c t k i ks ns Hc Hlt Hks.
  - exists p. split; [done|]. split; [done|]. split; [done|].
    intros e' [= <-].
    eapply Live.Tree_element; [exact Hlt | exact Hc |].
    revert Hks. apply Tree_frame. intros x [Hx _]. by split.
  - rewrite live_renderRuleList_cons, renderRuleList_cons.
    destruct (described reg name) as [d|e]; cbn [mbind outcome_bind].
    + destruct (live_mountRule_spec lib d name c p t k i ks Hc Hlt)
        as (p1 & E1 & N1 & C1 & T1 & F1).
      run_step E1.
      destruct (IH p1 c t k i (ks ++ [Live.next p])
                  (ns ++ [rule_block name (shown (RR.object lib d))])
                  C1 ltac:(lia)) as (p' & E & N & F & T).
      { apply Trees_app.
        - revert Hks. apply Tree_frame. intros x [Hx1 Hx2].
          split; [split; [lia | done]|]. by rewrite F1.
        - constructor; [|constructor].
          revert T1. apply Tree_frame. intros x [Hx1 Hx2].
          split; [split; lia | done]. }
      exists p'. split; [exact E|]. split; [lia|]. split; [|exact T].
      intros x Hx Hxc. rewrite F by lia. by apply F1.
    + exists p. split; [done|]. split; [done|]. split; [done|]. done.
Qed.

(** C9. On the page as a store of nodes: two containers are created, and
    the same name is rendered into the first and then into the second, with
    the same registry and the same build of the package. Both renderings
    end the same way, returning or throwing the same value. After them both
    containers read as the same tree below their tag: the block of the
    name, or nothing when the factory threw. The second rendering leaves
    the first container as the first rendering left it, and the two
    outputs have no node in common: each is made of the nodes that its own
    rendering created. This rests on the package building new nodes at
    every export, as [Live.object] has it; [cached_node_is_moved] shows
    what a diagram object that hands out one node twice does instead. *)
Theorem rendering_twice_on_one_page (lib : RR.Build)
  (reg : gmap string (unit → Outcome Item)) (name tag1 tag2 : string)
  (p : Live.Page) :
  ∃ c1 c2 p1 p2 p3 p4 out,
    Live.createElement tag1 p = (Returns c1, p1) ∧
    Live.createElement tag2 p1 = (Returns c2, p2) ∧
    Live.renderRuleList lib (Some c1) reg [name] p2 = (out, p3) ∧
    Live.renderRuleList lib (Some c2) reg [name] p3 = (out, p4) ∧
    let blocks :=
      match described reg name with
      | Returns d => [rule_block name (shown (RR.object lib d))]
      | Throws _ => []
      end in
    let nodes1 := Live.container_and_new c1 (Live.next p2) (Live.next p3) in
    let nodes2 := Live.container_and_new c2 (Live.next p3) (Live.next p4) in
    Live.Tree nodes1 p3 c1 (ElementNode (mkElement tag1 "" "" blocks)) ∧
    Live.Tree nodes1 p4 c1 (ElementNode (mkElement tag1 "" "" blocks)) ∧
    Live.Tree nodes2 p4 c2 (ElementNode (mkElement tag2 "" "" blocks)) ∧
    Live.apart nodes1 nodes2.
Proof.
  destruct (createElement_spec tag1 p) as (p1 & E1 & N1 & C1 & F1).
  destruct (createElement_spec tag2 p1) as (p2 & E2 & N2 & C2 & F2).
  assert (C1' : Live.cells p2 !! Live.next p =
                Some (Live.mkCell (Live.ElementKind tag1 "" "" []) None)).
  { rewrite F2 by lia. exact C1. }
  exists (Live.next p), (Live.next p1), p1, p2.
  destruct (described reg name) as [d|e] eqn:Hd.
  - destruct (live_mountRule_spec lib d name _ p2 _ _ _ _ C1' ltac:(lia))
      as (p3 & E3 & N3 & C3 & T3 & F3).
    assert (C2' : Live.cells p3 !! Live.next p1 =
                  Some (Live.mkCell (Live.ElementKind tag2 "" "" []) None)).
    { rewrite F3 by lia. exact C2. }
    destruct (live_mountRule_spec lib d name _ p3 _ _ _ _ C2' ltac:(lia))
      as (p4 & E4 & N4 & C4 & T4 & F4).
    exists p3, p4, (Returns ()).
    rewrite !live_renderRuleList_single, Hd.
    split; [exact E1|]. split; [exact E2|]. split; [exact E3|].
    split; [exact E4|]. cbv zeta. unfold Live.container_and_new.
    split; [|split; [|split]].
    + eapply Live.Tree_element; [by left | exact C3 |].
      constructor; [|constructor].
      revert T3. apply Tree_frame. intros x Hx. split; [by right | done].
    + eapply Live.Tree_element; [by left | |].
      * rewrite F4 by lia. exact C3.
      * constructor; [|constructor].
        revert T3. apply Tree_frame. intros x Hx. split; [by right|].
        destruct Hx as [Hx1 Hx2]. rewrite F4 by lia. done.
    + eapply Live.Tree_element; [by left | exact C4 |].
      constructor; [|constructor].
      revert T4. apply Tree_frame. intros x Hx. split; [by right | done].
    + unfold Live.apart, Live.between. lia.
  - exists p2, p2, (Throws e).
    rewrite !live_renderRuleList_single, Hd.
    split; [exact E1|]. split; [exact E2|]. split; [done|]. split; [done|].
    cbv zeta. unfold Live.container_and_new.
    split; [|split; [|split]].
    + eapply Live.Tree_element; [by left | exact C1' | constructor].
    + eapply Live.Tree_element; [by left | exact C1' | constructor].
    + eapply Live.Tree_element; [by left | exact C2 | constructor].
    + unfold Live.apart, Live.between. lia.
Qed.

(** A diagram object that is no object of the package and hands out one
    node at every export: mounted in two sections, the node is moved, and
    is in the second section only. *)
Example cached_node_is_moved :
  let '(out, p) := Live.mount_cached_twice Live.empty_page in
  out = Returns (0, 1) ∧
  Live.snapshot 8 p 0 =
    ElementNode (mkElement "section" "" "" [rule_block "a" []]) ∧
  Live.snapshot 8 p 1 =
    ElementNode
      (mkElement "section" "" ""
         [rule_block "a" [ElementNode (mkElement "svg" "" "" [])]]).
Proof. by vm_compute. Qed.

(** A diagram object whose [toSVG] returns the container: the container
    goes into the block, the block cannot go into the container, and
    [mountRule] throws outside its [try]. *)
Example container_in_itself_throws :
  (Live.mount_container_in_itself Live.empty_page).1 =
  Throws Live.hierarchy_error.
Proof. by vm_compute. Qed.

End Live_mount.
